(** * The appliance launcher of libguestfs (src/launch-appliance.c)

    A shallow embedding of the launcher back end: the command line
    builder, the qemu capability probe, the drive parameter formatter,
    the appliance device namer, the peer credential check over
    /proc/net/tcp, and the launch and shutdown entry points, followed by
    the properties established about them.

    Conventions.  A [const char *] is modelled by the [string] of the
    characters that precede its terminating NUL; a nullable pointer by
    [option].  C integers are [Z] with the conversions written out where
    the code relies on them.  Calls that leave the process (fork, socket,
    running qemu, reading /proc) take their outcome from an explicit
    environment and leave an event in a trace. *)

From Stdlib Require Import ZArith List String Ascii Bool Arith Lia.
From Equations Require Import Equations.
Import ListNotations.

Local Open Scope string_scope.
Local Open Scope Z_scope.

(** ** C strings *)

Module CStr.

Definition NUL : ascii := Ascii.zero.
Definition SPACE : ascii := " "%char.
Definition SQUOTE : ascii := "'"%char.
Definition DQUOTE : ascii := ascii_of_nat 34.

(** [s[i]]: the character at offset [i], the terminator at [strlen s]. *)
Definition char_at (s : string) (i : nat) : ascii :=
  match String.get i s with
  | Some c => c
  | None => NUL
  end.

(** The string a pointer [s + i] denotes. *)
Fixpoint advance (i : nat) (s : string) : string :=
  match i, s with
  | O, _ => s
  | S i', String _ s' => advance i' s'
  | S _, EmptyString => EmptyString
  end.

(** [strchr s c] for [c <> NUL]: offset of the first [c], if any. *)
Fixpoint strchr (s : string) (c : ascii) : option nat :=
  match s with
  | EmptyString => None
  | String a s' =>
      if Ascii.eqb a c then Some O
      else match strchr s' c with
           | Some n => Some (S n)
           | None => None
           end
  end.

(** [strndup s n]: at most [n] leading characters of [s]; [n] is a
    [size_t], kept in [Z] so that huge counts stay computable. *)
Fixpoint strndup (s : string) (n : Z) : string :=
  match s with
  | EmptyString => EmptyString
  | String a s' => if n <=? 0 then EmptyString else String a (strndup s' (n - 1))
  end.

(** [strstr h n <> NULL]. *)
Fixpoint strstr (haystack needle : string) : bool :=
  String.prefix needle haystack
  || match haystack with
     | EmptyString => false
     | String _ h' => strstr h' needle
     end.

Definition STREQ (a b : string) : bool := String.eqb a b.
Definition STRNEQ (a b : string) : bool := negb (String.eqb a b).

(** Conversion of a pointer difference to [size_t] (LP64). *)
Definition size_t_of (d : Z) : Z := d mod 2 ^ 64.

End CStr.

(** ** The handle *)

(** [enum state] of guestfs-internal.h. *)
Inductive state : Type := CONFIG | LAUNCHING | READY | NO_HANDLE.

Definition state_eqb (a b : state) : bool :=
  match a, b with
  | CONFIG, CONFIG | LAUNCHING, LAUNCHING | READY, READY | NO_HANDLE, NO_HANDLE => true
  | _, _ => false
  end.

(** [struct drive]: the fields the launcher reads. *)
Record drive : Type := mkDrive {
  path : string;
  iface : option string;
  format : option string;
  disk_label : option string;
  readonly : bool;
  use_cache_none : bool
}.

(** [struct timeval]. *)
Record timeval : Type := mkTimeval { tv_sec : Z; tv_usec : Z }.

Definition timeval_zero : timeval := mkTimeval 0 0.

(** The back end's part of the handle, [g->app]. *)
Record app_data : Type := mkApp {
  pid : Z;
  recoverypid : Z;
  qemu_help : option string;
  qemu_version : option string;
  qemu_devices : option string;
  qemu_version_major : Z;
  qemu_version_minor : Z;
  virtio_scsi : Z;
  cmdline : list string        (* [cmdline_size] is its length *)
}.

(** [guestfs_h]: the fields the launcher reads or writes. *)
Record guestfs_h : Type := mkHandle {
  g_state : state;
  drives : list drive;         (* [nr_drives] is its length *)
  qemu : string;
  verbose : bool;
  direct : bool;
  recovery_proc : bool;
  pgroup : bool;
  smp : Z;
  memsize : Z;
  qemu_params : list (string * option string);
  sock : Z;
  fd0 : Z;                     (* g->fd[0] *)
  fd1 : Z;                     (* g->fd[1] *)
  launch_t : timeval;
  app : app_data
}.

Definition nr_drives (g : guestfs_h) : nat := List.length (drives g).

Definition set_pid (v : Z) (a : app_data) : app_data :=
  mkApp v (recoverypid a) (qemu_help a) (qemu_version a) (qemu_devices a)
        (qemu_version_major a) (qemu_version_minor a) (virtio_scsi a) (cmdline a).
Definition set_recoverypid (v : Z) (a : app_data) : app_data :=
  mkApp (pid a) v (qemu_help a) (qemu_version a) (qemu_devices a)
        (qemu_version_major a) (qemu_version_minor a) (virtio_scsi a) (cmdline a).
Definition set_qemu_help (v : option string) (a : app_data) : app_data :=
  mkApp (pid a) (recoverypid a) v (qemu_version a) (qemu_devices a)
        (qemu_version_major a) (qemu_version_minor a) (virtio_scsi a) (cmdline a).
Definition set_qemu_version (v : option string) (a : app_data) : app_data :=
  mkApp (pid a) (recoverypid a) (qemu_help a) v (qemu_devices a)
        (qemu_version_major a) (qemu_version_minor a) (virtio_scsi a) (cmdline a).
Definition set_qemu_devices (v : option string) (a : app_data) : app_data :=
  mkApp (pid a) (recoverypid a) (qemu_help a) (qemu_version a) v
        (qemu_version_major a) (qemu_version_minor a) (virtio_scsi a) (cmdline a).
Definition set_qemu_version_major (v : Z) (a : app_data) : app_data :=
  mkApp (pid a) (recoverypid a) (qemu_help a) (qemu_version a) (qemu_devices a)
        v (qemu_version_minor a) (virtio_scsi a) (cmdline a).
Definition set_qemu_version_minor (v : Z) (a : app_data) : app_data :=
  mkApp (pid a) (recoverypid a) (qemu_help a) (qemu_version a) (qemu_devices a)
        (qemu_version_major a) v (virtio_scsi a) (cmdline a).
Definition set_virtio_scsi (v : Z) (a : app_data) : app_data :=
  mkApp (pid a) (recoverypid a) (qemu_help a) (qemu_version a) (qemu_devices a)
        (qemu_version_major a) (qemu_version_minor a) v (cmdline a).
Definition set_cmdline (v : list string) (a : app_data) : app_data :=
  mkApp (pid a) (recoverypid a) (qemu_help a) (qemu_version a) (qemu_devices a)
        (qemu_version_major a) (qemu_version_minor a) (virtio_scsi a) v.

Definition set_state (v : state) (g : guestfs_h) : guestfs_h :=
  mkHandle v (drives g) (qemu g) (verbose g) (direct g) (recovery_proc g)
           (pgroup g) (smp g) (memsize g) (qemu_params g) (sock g) (fd0 g) (fd1 g)
           (launch_t g) (app g).
Definition set_sock (v : Z) (g : guestfs_h) : guestfs_h :=
  mkHandle (g_state g) (drives g) (qemu g) (verbose g) (direct g) (recovery_proc g)
           (pgroup g) (smp g) (memsize g) (qemu_params g) v (fd0 g) (fd1 g)
           (launch_t g) (app g).
Definition set_fd0 (v : Z) (g : guestfs_h) : guestfs_h :=
  mkHandle (g_state g) (drives g) (qemu g) (verbose g) (direct g) (recovery_proc g)
           (pgroup g) (smp g) (memsize g) (qemu_params g) (sock g) v (fd1 g)
           (launch_t g) (app g).
Definition set_fd1 (v : Z) (g : guestfs_h) : guestfs_h :=
  mkHandle (g_state g) (drives g) (qemu g) (verbose g) (direct g) (recovery_proc g)
           (pgroup g) (smp g) (memsize g) (qemu_params g) (sock g) (fd0 g) v
           (launch_t g) (app g).
Definition set_launch_t (v : timeval) (g : guestfs_h) : guestfs_h :=
  mkHandle (g_state g) (drives g) (qemu g) (verbose g) (direct g) (recovery_proc g)
           (pgroup g) (smp g) (memsize g) (qemu_params g) (sock g) (fd0 g) (fd1 g)
           v (app g).
Definition set_app (v : app_data) (g : guestfs_h) : guestfs_h :=
  mkHandle (g_state g) (drives g) (qemu g) (verbose g) (direct g) (recovery_proc g)
           (pgroup g) (smp g) (memsize g) (qemu_params g) (sock g) (fd0 g) (fd1 g)
           (launch_t g) v.

(** [g->app.field = v]. *)
Definition upd_app (f : app_data -> app_data) (g : guestfs_h) : guestfs_h :=
  set_app (f (app g)) g.

(** ** Building the qemu command line (child process only) *)

(** [alloc_cmdline]: the vector starts with the qemu binary. *)
Definition alloc_cmdline (g : guestfs_h) : guestfs_h :=
  upd_app (set_cmdline [qemu g]) g.

(** [add_cmdline]: append one token verbatim. *)
Definition add_cmdline (g : guestfs_h) (str : string) : guestfs_h :=
  upd_app (set_cmdline (cmdline (app g) ++ [str])) g.

(** The two ways [add_cmdline_shell_unquoted] ends the child with
    [_exit (EXIT_FAILURE)]. *)
Inductive shell_error : Type :=
| UnclosedQuote (quote : ascii) (near : string)
| CannotParseQuoted (near : string).

(** The loop that moves [nextp] past a run of spaces, on the string at
    [nextp]. *)
Fixpoint skip_spaces (s : string) : string :=
  match s with
  | EmptyString => EmptyString
  | String a s' => if Ascii.eqb a CStr.SPACE then skip_spaces s' else s
  end.

(** One turn of the loop of [add_cmdline_shell_unquoted] on a non-empty
    [options]: the token pushed and the string [options] points to
    afterwards.  [startp], [endp] and [nextp] are offsets into [options]. *)
Definition shell_token (options : string) : shell_error + (string * string) :=
  let c := CStr.char_at options 0 in
  let quoted := Ascii.eqb c CStr.SQUOTE || Ascii.eqb c CStr.DQUOTE in
  let startp := if quoted then 1%nat else 0%nat in
  let quote := if quoted then c else CStr.SPACE in
  (* endp = strchr (options, quote) *)
  let endp_r :=
    match CStr.strchr options quote with
    | Some e => inr e
    | None =>
        if negb (Ascii.eqb quote CStr.SPACE)
        then inl (UnclosedQuote quote options)
        else inr (String.length options)
    end in
  match endp_r with
  | inl e => inl e
  | inr endp =>
      let nextp_r :=
        if Ascii.eqb quote CStr.SPACE then
          if Ascii.eqb (CStr.char_at options endp) CStr.NUL
          then inr endp else inr (S endp)
        else
          if Ascii.eqb (CStr.char_at options (S endp)) CStr.NUL then inr (S endp)
          else if Ascii.eqb (CStr.char_at options (S endp)) CStr.SPACE
               then inr (S (S endp))
               else inl (CannotParseQuoted options) in
      match nextp_r with
      | inl e => inl e
      | inr nextp =>
          inr (CStr.strndup (CStr.advance startp options)
                 (CStr.size_t_of (Z.of_nat endp - Z.of_nat startp)),
               skip_spaces (CStr.advance nextp options))
      end
  end.

Definition inspect {A : Type} (a : A) : {b : A | a = b} := exist _ a eq_refl.

Lemma skip_spaces_length s :
  (String.length (skip_spaces s) <= String.length s)%nat.
Proof.
  induction s as [|a s IH]; simpl; [lia|].
  destruct (Ascii.eqb a CStr.SPACE); simpl; lia.
Qed.

Lemma advance_length i s :
  String.length (CStr.advance i s) = (String.length s - i)%nat.
Proof.
  revert s; induction i as [|i IH]; intros [|a s]; simpl; auto with arith.
Qed.

Lemma get_length_None s : String.get (String.length s) s = None.
Proof. induction s; simpl; auto. Qed.

Lemma strchr_hit s c n : CStr.strchr s c = Some n -> CStr.char_at s n = c.
Proof.
  revert n; induction s as [|a s IH]; simpl; intros n H; [discriminate|].
  destruct (Ascii.eqb a c) eqn:E.
  - inversion H; subst. apply Ascii.eqb_eq in E. exact E.
  - destruct (CStr.strchr s c) as [m|]; [|discriminate].
    inversion H; subst. apply (IH m eq_refl).
Qed.

Lemma strchr_lt s c n : CStr.strchr s c = Some n -> (n < String.length s)%nat.
Proof.
  revert n; induction s as [|a s IH]; simpl; intros n H; [discriminate|].
  destruct (Ascii.eqb a c).
  - inversion H; lia.
  - destruct (CStr.strchr s c) as [m|]; [|discriminate].
    inversion H; subst. specialize (IH m eq_refl). lia.
Qed.

Lemma CStr_strchr_head a s : CStr.strchr (String a s) a = Some O.
Proof. simpl. rewrite Ascii.eqb_refl. reflexivity. Qed.

(** Every turn of the loop consumes at least one character. *)
Lemma shell_token_progress a s tok rest :
  shell_token (String a s) = inr (tok, rest) ->
  (String.length rest < String.length (String a s))%nat.
Proof.
  unfold shell_token.
  set (o := String a s).
  set (c := CStr.char_at o 0).
  set (quoted := (Ascii.eqb c CStr.SQUOTE || Ascii.eqb c CStr.DQUOTE)%bool).
  set (quote := if quoted then c else CStr.SPACE).
  assert (Hlen : String.length o = S (String.length s)) by reflexivity.
  assert (Hskip : forall n, (1 <= n)%nat ->
            (String.length (skip_spaces (CStr.advance n o)) < String.length o)%nat).
  { intros n Hn. pose proof (skip_spaces_length (CStr.advance n o)) as H.
    rewrite advance_length in H. lia. }
  destruct (CStr.strchr o quote) as [e|] eqn:He.
  - destruct (Ascii.eqb quote CStr.SPACE) eqn:Hq.
    + destruct (Ascii.eqb (CStr.char_at o e) CStr.NUL) eqn:Hn.
      * intros [= _ <-]. apply (Hskip e).
        destruct e as [|e]; [exfalso|lia].
        pose proof (strchr_hit _ _ _ He) as Hhit.
        apply Ascii.eqb_eq in Hn, Hq. rewrite Hhit, Hq in Hn. discriminate.
      * intros [= _ <-]. apply (Hskip (S e)). lia.
    + destruct (Ascii.eqb (CStr.char_at o (S e)) CStr.NUL);
        [|destruct (Ascii.eqb (CStr.char_at o (S e)) CStr.SPACE)];
        intros [= _ <-]; [apply (Hskip (S e))|apply (Hskip (S (S e)))]; lia.
  - destruct (negb (Ascii.eqb quote CStr.SPACE)) eqn:Hq; [discriminate|].
    apply negb_false_iff in Hq. rewrite Hq.
    unfold CStr.char_at. rewrite get_length_None. simpl.
    intros [= _ <-]. apply (Hskip (String.length o)). lia.
Qed.

(** [add_cmdline_shell_unquoted]: the tokens pushed onto the command
    line, or the failure that ends the child. *)
Equations? shell_loop (options : string) (acc : list string) :
    shell_error + list string by wf (String.length options) lt :=
  shell_loop EmptyString acc := inr acc;
  shell_loop (String a s) acc with inspect (shell_token (String a s)) => {
    | exist _ (inl e) _ := inl e;
    | exist _ (inr (tok, rest)) H := shell_loop rest (acc ++ [tok]) }.
Proof. eapply shell_token_progress; eassumption. Qed.

Definition add_cmdline_shell_unquoted (g : guestfs_h) (options : string) :
    shell_error + guestfs_h :=
  match shell_loop options (cmdline (app g)) with
  | inl e => inl e
  | inr v => inr (upd_app (set_cmdline v) g)
  end.

(** An unquoted word: not empty, free of spaces, not opening with a
    quote. *)
Fixpoint no_space (w : string) : Prop :=
  match w with
  | EmptyString => True
  | String c w' => c <> CStr.SPACE /\ no_space w'
  end.

Definition word (w : string) : Prop :=
  match w with
  | EmptyString => False
  | String c _ => c <> CStr.SQUOTE /\ c <> CStr.DQUOTE /\ no_space w
  end.

Fixpoint spaces (n : nat) : string :=
  match n with
  | O => EmptyString
  | S n' => String CStr.SPACE (spaces n')
  end.

(** Words, each followed by one space and as many more as given, and a
    last word. *)
Fixpoint join_words (ws : list (string * nat)) (last : string) : string :=
  match ws with
  | [] => last
  | (w, n) :: ws' => w ++ String CStr.SPACE (spaces n ++ join_words ws' last)
  end.

(** ** Probing the qemu binary *)

(** C truth value of a condition. *)
Definition b2z (b : bool) : Z := if b then 1 else 0.

(** Modelled from the spec: the command runner of the library
    ([guestfs___cmd_run] with a whole-buffer stdout callback) is not part
    of these sources.  The spec has it capture the entire standard output
    of the binary; a run either cannot be carried out ([r == -1], the
    callback fired or not) or ends with a wait status and the output
    handed to the callback. *)
Inductive cmd_outcome : Type :=
| CmdError (out : option string)
| CmdFinished (status : Z) (out : string).

Definition cmd_r (c : cmd_outcome) : Z :=
  match c with
  | CmdError _ => -1
  | CmdFinished status _ => status
  end.

Definition cmd_stdout (c : cmd_outcome) : option string :=
  match c with
  | CmdError out => out
  | CmdFinished _ out => Some out
  end.

(** The wait status macros of <sys/wait.h>. *)
Definition WIFEXITED (status : Z) : bool := Z.land status 127 =? 0.
Definition WEXITSTATUS (status : Z) : Z := Z.shiftr (Z.land status 65280) 8.

Definition is_digit (c : ascii) : bool :=
  let n := nat_of_ascii c in (48 <=? n)%nat && (n <=? 57)%nat.

(** The longest run of digits at the head of [s], and what follows. *)
Fixpoint take_digits (s : string) : string * string :=
  match s with
  | EmptyString => (EmptyString, EmptyString)
  | String c s' =>
      if is_digit c
      then let (d, r) := take_digits s' in (String c d, r)
      else (EmptyString, s)
  end.

(** A match of [(\d+)\.(\d+)] anchored at the head of [s]. *)
Definition major_minor_here (s : string) : option (string * string) :=
  match take_digits s with
  | (EmptyString, _) => None
  | (major_s, String "." r) =>
      match take_digits r with
      | (EmptyString, _) => None
      | (minor_s, _) => Some (major_s, minor_s)
      end
  | _ => None
  end.

(** Modelled from the spec: [match2] and the compiled [re_major_minor]
    live outside these sources.  The spec reads the version as the first
    occurrence of a [(digits).(digits)] token; this is the leftmost,
    greedy match of the pattern [(\d+)\.(\d+)] the file compiles. *)
Fixpoint match2_major_minor (s : string) : option (string * string) :=
  match major_minor_here s with
  | Some m => Some m
  | None =>
      match s with
      | EmptyString => None
      | String _ s' => match2_major_minor s'
      end
  end.

Definition INT_MAX : Z := 2147483647.

Fixpoint decimal_value (acc : Z) (s : string) : Z :=
  match s with
  | EmptyString => acc
  | String c s' => decimal_value (10 * acc + (Z.of_nat (nat_of_ascii c) - 48)) s'
  end.

(** Modelled from the spec: [guestfs___parse_unsigned_int] is not part of
    these sources.  It yields the non-negative integer a string of digits
    denotes, or -1 when that does not fit an [int]. *)
Definition parse_unsigned_int (s : string) : Z :=
  let v := decimal_value 0 s in
  if v <=? INT_MAX then v else -1.

(** [parse_qemu_version]. *)
Definition parse_qemu_version (g : guestfs_h) : guestfs_h :=
  let g := upd_app (set_qemu_version_major 0) g in
  let g := upd_app (set_qemu_version_minor 0) g in
  match qemu_version (app g) with
  | None => g
  | Some version =>
      match match2_major_minor version with
      | None => g                                  (* parse_failed *)
      | Some (major_s, minor_s) =>
          let major_i := parse_unsigned_int major_s in
          if major_i =? -1 then g
          else
            let minor_i := parse_unsigned_int minor_s in
            if minor_i =? -1 then g
            else
              let g := upd_app (set_qemu_version_major major_i) g in
              upd_app (set_qemu_version_minor minor_i) g
      end
  end.

(** [test_qemu]; [run] is what running [qemu -nographic -help] gives. *)
Definition test_qemu (run : cmd_outcome) (g : guestfs_h) : Z * guestfs_h :=
  let g := upd_app (set_qemu_help None) g in
  let g := upd_app (set_qemu_version None) g in
  let g := upd_app (set_qemu_devices None) g in
  (* guestfs___cmd_run (cmd1), read_all storing into g->app.qemu_help *)
  let g := match cmd_stdout run with
           | Some out => upd_app (set_qemu_help (Some out)) g
           | None => g
           end in
  let r := cmd_r run in
  if (r =? -1) || negb (WIFEXITED r) || negb (WEXITSTATUS r =? 0)
  then (-1, g)                                     (* error: *)
  else
    let g := upd_app (set_qemu_version (Some EmptyString)) g in
    let g := parse_qemu_version g in
    let g := upd_app (set_qemu_devices (Some EmptyString)) g in
    (0, g).

(** [qemu_supports]; [option] is [None] for a NULL argument.  The help
    text is present whenever the probe did not fail. *)
Definition qemu_supports (run : cmd_outcome) (g : guestfs_h)
    (option : option string) : Z * guestfs_h :=
  let probe :=
    match qemu_help (app g) with
    | None => test_qemu run g
    | Some _ => (0, g)
    end in
  let (r, g) := probe in
  if r =? -1 then (-1, g)
  else
    match option, qemu_help (app g) with
    | None, _ => (1, g)
    | Some opt, Some help => (b2z (CStr.strstr help opt), g)
    | Some _, None => (-1, g)                      (* not reached *)
    end.

(** [qemu_supports_device]. *)
Definition qemu_supports_device (run : cmd_outcome) (g : guestfs_h)
    (device_name : string) : Z * guestfs_h :=
  let probe :=
    match qemu_devices (app g) with
    | None => test_qemu run g
    | Some _ => (0, g)
    end in
  let (r, g) := probe in
  if r =? -1 then (-1, g)
  else
    match qemu_devices (app g) with
    | Some devices => (b2z (CStr.strstr devices device_name), g)
    | None => (-1, g)                              (* not reached *)
    end.

(** [old_or_broken_virtio_scsi]. *)
Definition old_or_broken_virtio_scsi (g : guestfs_h) : Z :=
  if (qemu_version_major (app g) =? 1) && (qemu_version_minor (app g) <? 2)
  then 1 else 0.

(** [qemu_supports_virtio_scsi]: 1 = use virtio-scsi, 0 = use virtio-blk.
    No path runs the binary twice: a first probe that succeeds leaves the
    device text in place. *)
Definition qemu_supports_virtio_scsi (run : cmd_outcome) (g : guestfs_h) :
    Z * guestfs_h :=
  let probe :=
    match qemu_help (app g) with
    | None => test_qemu run g
    | Some _ => (0, g)
    end in
  let (r, g) := probe in
  if r =? -1 then (0, g)                           (* safe option? *)
  else
    let g :=
      if virtio_scsi (app g) =? 0 then
        if negb (old_or_broken_virtio_scsi g =? 0)
        then upd_app (set_virtio_scsi 2) g
        else
          let (r, g) := qemu_supports_device run g "virtio-scsi-pci" in
          if r >? 0 then upd_app (set_virtio_scsi 1) g
          else if r =? 0 then upd_app (set_virtio_scsi 2) g
          else upd_app (set_virtio_scsi 3) g
      else g in
    (b2z (virtio_scsi (app g) =? 1), g).

(** [max_disks_appliance]. *)
Definition max_disks_appliance (run : cmd_outcome) (g : guestfs_h) :
    Z * guestfs_h :=
  let (r, g) := qemu_supports_virtio_scsi run g in
  if negb (r =? 0) then (255, g) else (27, g).

(** The first step of [qemu_supports_virtio_scsi]: the probe, when the
    help text is not cached. *)
Definition first_probe (run : cmd_outcome) (g : guestfs_h) : Z * guestfs_h :=
  match qemu_help (app g) with
  | None => test_qemu run g
  | Some _ => (0, g)
  end.

(** The answers of a run of calls, one after the other on the same
    handle; [runs] gives each call its outcome of running qemu. *)
Fixpoint choose_again (runs : list cmd_outcome) (g : guestfs_h) : list Z :=
  match runs with
  | [] => []
  | run :: runs' =>
      let (r, g') := qemu_supports_virtio_scsi run g in
      r :: choose_again runs' g'
  end.

(** ** Formatting a -drive parameter *)

Definition strlen (s : string) : Z := Z.of_nat (String.length s).

Definition strlen_opt (s : option string) : Z :=
  match s with
  | Some s => strlen s
  | None => 0
  end.

Definition COMMA : ascii := ","%char.

(** The loop that copies the path into [r] from index [i] on, writing
    [","] twice; [r] holds the [i] characters written so far. *)
Fixpoint copy_path_escaped (p : string) (r : string) : string :=
  match p with
  | EmptyString => r
  | String c p' =>
      if Ascii.eqb c COMMA
      then copy_path_escaped p' (r ++ String COMMA (String COMMA EmptyString))
      else copy_path_escaped p' (r ++ String c EmptyString)
  end.

(** [snprintf (buf, size, ...)] of text [s]: what ends up in [buf]
    before the terminator. *)
Definition snprintf (size : Z) (s : string) : string :=
  if size <=? 0 then EmptyString else CStr.strndup s (size - 1).

(** [qemu_drive_param].  [index] is accepted and not used, as in the
    source. *)
Definition qemu_drive_param (run : cmd_outcome) (g : guestfs_h) (drv : drive)
    (index : nat) : string * guestfs_h :=
  let len := 128 + strlen (path drv) * 2 in
  let len := len + strlen_opt (iface drv) in
  let len := len + strlen_opt (format drv) in
  let len := len + strlen_opt (disk_label drv) in
  let r := "file=" in
  let r := copy_path_escaped (path drv) r in
  let i := strlen r in
  let (iface_s, g) :=
    match iface drv with
    | Some s => (s, g)
    | None =>
        let (v, g) := qemu_supports_virtio_scsi run g in
        if negb (v =? 0) then ("none", g) else ("virtio", g)
    end in
  let text :=
    (if readonly drv then ",snapshot=on" else "") ++
    (if use_cache_none drv then ",cache=none" else "") ++
    (match format drv with Some _ => ",format=" | None => "" end) ++
    (match format drv with Some f => f | None => "" end) ++
    (match disk_label drv with Some _ => ",serial=" | None => "" end) ++
    (match disk_label drv with Some l => l | None => "" end) ++
    ",if=" ++ iface_s in
  (r ++ snprintf (len - i) text, g).

(** The escaping in the spec's words: every comma of the path doubled,
    every other character as it is. *)
Fixpoint escape_commas (p : string) : string :=
  match p with
  | EmptyString => EmptyString
  | String c p' =>
      if Ascii.eqb c COMMA
      then String COMMA (String COMMA (escape_commas p'))
      else String c (escape_commas p')
  end.

(** Un-escaping gives the path back. *)
Fixpoint unescape_commas (s : string) : string :=
  match s with
  | String c1 (String c2 s' as t) =>
      if Ascii.eqb c1 COMMA && Ascii.eqb c2 COMMA
      then String COMMA (unescape_commas s')
      else String c1 (unescape_commas t)
  | _ => s
  end.

(** ** Naming the appliance device *)

Definition letter (n : nat) : string :=
  String (ascii_of_nat (97 + n)) EmptyString.

(** Modelled from the spec: [guestfs___drive_name] is not part of these
    sources.  The spec gives the mapping: the base-26 letter sequence of
    the index, 0 -> a, 1 -> b, ..., 25 -> z, 26 -> aa, ... *)
Equations? drive_name (index : nat) : string by wf index lt :=
  drive_name index with le_lt_dec 26 index => {
    | left _ := drive_name (index / 26 - 1) ++ letter (index mod 26);
    | right _ := letter index }.
Proof.
  clear drive_name.
  assert (H : (index / 26 <= index / 2)%nat).
  { apply Nat.div_le_compat_l. lia. }
  assert (H2 : (2 * (index / 2) <= index)%nat).
  { apply Nat.Div0.mul_div_le. }
  change (fst (Nat.divmod index 25 0 25)) with (index / 26)%nat.
  lia.
Qed.

(** [dev[i] = c]. *)
Fixpoint set_char (i : nat) (c : ascii) (s : string) : string :=
  match s, i with
  | EmptyString, _ => EmptyString
  | String _ s', O => String c s'
  | String a s', S i' => String a (set_char i' c s')
  end.

(** The test of one turn of the counting loop of [make_appliance_dev]. *)
Definition counts_for_appliance (virtio_scsi : Z) (drv : drive) : bool :=
  if negb (virtio_scsi =? 0) then
    match iface drv with
    | None => true
    | Some i => CStr.STREQ i "ide"
    end
  else (* virtio-blk *)
    match iface drv with
    | None => true
    | Some i => CStr.STRNEQ i "virtio"
    end.

(** [make_appliance_dev].  Modelled from the spec: ITER_DRIVES comes from
    a header outside these sources; it visits the drives of the handle in
    order. *)
Definition make_appliance_dev (g : guestfs_h) (virtio_scsi : Z) : string :=
  let index :=
    fold_left
      (fun index drv => if counts_for_appliance virtio_scsi drv
                        then S index else index)
      (drives g) O in
  let dev := "/dev/Xd" in
  let dev := set_char 5 (if negb (virtio_scsi =? 0) then "s"%char else "v"%char) dev in
  dev ++ drive_name index.

(** The drives the spec counts under each bus. *)
Definition unset_or_ide (drv : drive) : bool :=
  match iface drv with
  | None => true
  | Some i => String.eqb i "ide"
  end.

Definition unset_or_not_virtio (drv : drive) : bool :=
  match iface drv with
  | None => true
  | Some i => negb (String.eqb i "virtio")
  end.

(** ** Reading numbers the way sscanf does *)

Definition isspace (c : ascii) : bool :=
  let n := nat_of_ascii c in
  (n =? 32)%nat || ((9 <=? n)%nat && (n <=? 13)%nat).

Fixpoint skip_ws (s : string) : string :=
  match s with
  | EmptyString => EmptyString
  | String c s' => if isspace c then skip_ws s' else s
  end.

(** Value of a digit in the given base, if it is one. *)
Definition digit_value (base : Z) (c : ascii) : option Z :=
  let n := Z.of_nat (nat_of_ascii c) in
  let v :=
    if (48 <=? n) && (n <=? 57) then Some (n - 48)
    else if (97 <=? n) && (n <=? 102) then Some (n - 87)
    else if (65 <=? n) && (n <=? 70) then Some (n - 55)
    else None in
  match v with
  | Some d => if d <? base then Some d else None
  | None => None
  end.

(** A field width: [None] when the directive gives none. *)
Definition width_dec (w : option nat) : option nat :=
  match w with
  | Some n => Some (Nat.pred n)
  | None => None
  end.

Definition width_open (w : option nat) : bool :=
  match w with
  | Some O => false
  | _ => true
  end.

(** The digits read while the width lasts: their number, their value on
    top of [acc], and the input left. *)
Fixpoint read_digits (base : Z) (w : option nat) (acc : Z) (s : string) :
    nat * Z * string :=
  match s with
  | EmptyString => (O, acc, s)
  | String c s' =>
      if width_open w then
        match digit_value base c with
        | Some d =>
            let '(n, v, r) := read_digits base (width_dec w) (base * acc + d) s' in
            (S n, v, r)
        | None => (O, acc, s)
        end
      else (O, acc, s)
  end.

Definition LONG_MAX : Z := 2 ^ 63 - 1.
Definition LONG_MIN : Z := - 2 ^ 63.
Definition ULONG_MAX : Z := 2 ^ 64 - 1.

(** What [strtol] and [strtoul] make of a sign and a magnitude (LP64). *)
Definition strtol_value (neg : bool) (v : Z) : Z :=
  let x := if neg then - v else v in
  Z.max LONG_MIN (Z.min LONG_MAX x).

Definition strtoul_value (neg : bool) (v : Z) : Z :=
  if ULONG_MAX <? v then ULONG_MAX
  else if neg then (- v) mod 2 ^ 64 else v.

(** Storing through an [int *] or an [unsigned *]. *)
Definition to_int (x : Z) : Z := (x + 2 ^ 31) mod 2 ^ 32 - 2 ^ 31.
Definition to_unsigned (x : Z) : Z := x mod 2 ^ 32.

(** One numeric conversion ([%d] when [signed], [%X] otherwise): leading
    white space is skipped; a sign, a leading zero and, in base 16, an
    [x] after that zero are taken within the width; then digits.  No
    digit at all is a matching failure. *)
Definition scan_number (base : Z) (signed : bool) (w : option nat) (s : string) :
    option (Z * string) :=
  match skip_ws s with
  | EmptyString => None                            (* input failure *)
  | String c r as s1 =>
      let '(neg, have_sign, w, s2) :=
        if Ascii.eqb c "-"%char then (true, true, width_dec w, r)
        else if Ascii.eqb c "+"%char then (false, true, width_dec w, r)
        else (false, false, w, s1) in
      let '(zero, w, s3) :=
        match s2 with
        | String "0"%char r2 =>
            if width_open w then
              let w := width_dec w in
              match r2 with
              | String x r3 =>
                  if width_open w && (base =? 16)
                     && (Ascii.eqb x "x"%char || Ascii.eqb x "X"%char)
                  then (true, width_dec w, r3)
                  else (true, w, r2)
              | EmptyString => (true, w, r2)
              end
            else (false, w, s2)
        | _ => (false, w, s2)
        end in
      let '(n, v, rest) := read_digits base w 0 s3 in
      if negb zero && (n =? 0)%nat then None       (* matching failure *)
      else
        Some (if signed then to_int (strtol_value neg v)
              else to_unsigned (strtoul_value neg v),
              rest)
  end.

(** The directives the format of [check_peer_euid] is made of. *)
Inductive directive : Type :=
| D_ws                       (* white space: any amount of it, or none *)
| D_lit (c : ascii)          (* an ordinary character: itself *)
| D_dec                      (* %d *)
| D_hex (w : nat).           (* %0wX *)

(** [sscanf]: the values converted before the first failure.  Its return
    value is their number whenever something was converted. *)
Fixpoint sscanf (fmt : list directive) (s : string) : list Z :=
  match fmt with
  | [] => []
  | D_ws :: fmt' => sscanf fmt' (skip_ws s)
  | D_lit c :: fmt' =>
      match s with
      | String a s' => if Ascii.eqb a c then sscanf fmt' s' else []
      | EmptyString => []
      end
  | D_dec :: fmt' =>
      match scan_number 10 true None s with
      | Some (v, s') => v :: sscanf fmt' s'
      | None => []
      end
  | D_hex w :: fmt' =>
      match scan_number 16 false (Some w) s with
      | Some (v, s') => v :: sscanf fmt' s'
      | None => []
      end
  end.

(** ["%d:%08X:%04X %08X:%04X %02X %08X:%08X %02X:%08X %08X %d"] *)
Definition tcp_line_format : list directive :=
  [D_dec; D_lit ":"; D_hex 8; D_lit ":"; D_hex 4; D_ws;
   D_hex 8; D_lit ":"; D_hex 4; D_ws;
   D_hex 2; D_ws;
   D_hex 8; D_lit ":"; D_hex 8; D_ws;
   D_hex 2; D_lit ":"; D_hex 8; D_ws;
   D_hex 8; D_ws;
   D_dec].

(** The characters of a buffer that make up the C string in it. *)
Fixpoint c_str (buf : string) : string :=
  match buf with
  | EmptyString => EmptyString
  | String c buf' => if Ascii.eqb c CStr.NUL then EmptyString else String c (c_str buf')
  end.

(** ** Checking the peer of the accepted socket *)

Definition NEWLINE : ascii := ascii_of_nat 10.

(** Up to [n] characters of the stream, through the first newline. *)
Fixpoint read_line (n : nat) (fp : string) : string * string :=
  match n, fp with
  | O, _ => (EmptyString, fp)
  | _, EmptyString => (EmptyString, EmptyString)
  | S n', String c fp' =>
      if Ascii.eqb c NEWLINE then (String c EmptyString, fp')
      else let (l, r) := read_line n' fp' in (String c l, r)
  end.

(** [fgets (line, size, fp)] on the unread part [fp] of a file: the line
    stored and what stays unread, or [None] at the end of the file. *)
Definition fgets (size : nat) (fp : string) : option (string * string) :=
  match fp with
  | EmptyString => None
  | _ => Some (read_line (size - 1) fp)
  end.

(** [struct sockaddr_in] as the socket calls fill it in: port and address
    in network byte order. *)
Record sockaddr_in : Type := mkSockaddr {
  sin_family : Z;
  sin_port : Z;
  sin_addr : Z                 (* sin_addr.s_addr *)
}.

Definition AF_INET : Z := 2.
Definition INADDR_LOOPBACK : Z := 2130706433.      (* 0x7f000001 *)

Definition bswap16 (x : Z) : Z :=
  Z.lor (Z.shiftl (Z.land x 255) 8) (Z.land (Z.shiftr x 8) 255).

Definition bswap32 (x : Z) : Z :=
  Z.lor (Z.lor (Z.shiftl (Z.land x 255) 24)
               (Z.shiftl (Z.land (Z.shiftr x 8) 255) 16))
        (Z.lor (Z.shiftl (Z.land (Z.shiftr x 16) 255) 8)
               (Z.land (Z.shiftr x 24) 255)).

(** Network to host order; the host is big endian or not. *)
Definition ntohs (big_endian : bool) (x : Z) : Z :=
  if big_endian then x else bswap16 x.
Definition ntohl (big_endian : bool) (x : Z) : Z :=
  if big_endian then x else bswap32 x.

(** What the socket and /proc give [check_peer_euid]. *)
Record peer_env : Type := mkPeerEnv {
  big_endian : bool;
  getpeername : option sockaddr_in;
  getsockname : option sockaddr_in;
  proc_net_tcp : option string     (* the file, when fopen succeeds *)
}.

Inductive peer_error : Type :=
| ErrGetpeername
| ErrUnexpectedPeer
| ErrGetsockname
| ErrOpenProcNetTcp
| ErrUnexpectedEOF
| ErrNoMatchingConnection.

(** The body of the scanning loop on one line: the UID to return, if the
    line parses in full and carries the tuple of the socket. *)
Definition tcp_line_uid (be : bool) (our peer : sockaddr_in) (line : string) :
    option Z :=
  match sscanf tcp_line_format (c_str line) with
  | [_; line_our_addr; line_our_port; line_peer_addr; line_peer_port;
     _; _; _; _; _; _; line_uid] =>
      if (line_our_addr =? sin_addr our)
         && (line_our_port =? ntohs be (sin_port our))
         && (line_peer_addr =? sin_addr peer)
         && (line_peer_port =? ntohs be (sin_port peer))
      then Some (to_unsigned line_uid)             (* *rtn = line_uid *)
      else None
  | _ => None
  end.

Lemma read_line_progress n fp l r :
  (0 < n)%nat -> fp <> EmptyString -> read_line n fp = (l, r) ->
  (String.length r < String.length fp)%nat.
Proof.
  revert fp l r; induction n as [|n IH]; intros fp l r Hn Hfp; [lia|].
  destruct fp as [|c fp]; [congruence|]. simpl.
  destruct (Ascii.eqb c NEWLINE).
  - intros [= _ <-]. lia.
  - destruct (read_line n fp) as [l' r'] eqn:E. intros [= _ <-].
    destruct n as [|n].
    + simpl in E. injection E as _ <-. lia.
    + destruct fp as [|c' fp'].
      * simpl in E. injection E as _ <-. simpl. lia.
      * specialize (IH (String c' fp') l' r' ltac:(lia) ltac:(discriminate) E).
        simpl in *. lia.
Qed.

Lemma fgets_progress fp l r :
  fgets 256 fp = Some (l, r) -> (String.length r < String.length fp)%nat.
Proof.
  unfold fgets. destruct fp as [|c fp]; [discriminate|].
  intros H.
  assert (H' : read_line (256 - 1) (String c fp) = (l, r)) by congruence.
  apply (read_line_progress (256 - 1) _ l r); [lia|discriminate|exact H'].
Qed.

(** The [while (fgets ...)] loop of [check_peer_euid] on the part of the
    file that follows the header. *)
Equations? scan_tcp_table (be : bool) (our peer : sockaddr_in) (fp : string) :
    peer_error + Z by wf (String.length fp) lt :=
  scan_tcp_table be our peer fp with inspect (fgets 256 fp) => {
    | exist _ None _ := inl ErrNoMatchingConnection;
    | exist _ (Some (line, rest)) H with tcp_line_uid be our peer line => {
        | Some uid := inr uid;
        | None := scan_tcp_table be our peer rest } }.
Proof. eapply fgets_progress; eassumption. Qed.

(** [check_peer_euid]: the UID stored through [rtn], or the failure. *)
Definition check_peer_euid (e : peer_env) : peer_error + Z :=
  match getpeername e with
  | None => inl ErrGetpeername
  | Some peer =>
      if negb (sin_family peer =? AF_INET)
         || negb (ntohl (big_endian e) (sin_addr peer) =? INADDR_LOOPBACK)
      then inl ErrUnexpectedPeer
      else
        match getsockname e with
        | None => inl ErrGetsockname
        | Some our =>
            match proc_net_tcp e with
            | None => inl ErrOpenProcNetTcp
            | Some fp =>
                match fgets 256 fp with            (* Drop first line. *)
                | None => inl ErrUnexpectedEOF
                | Some (_, fp) => scan_tcp_table (big_endian e) our peer fp
                end
            end
        end
  end.

(** The lines [fgets] hands out, one call after the other, until the
    end of the file. *)
Equations? fgets_lines (fp : string) : list string by wf (String.length fp) lt :=
  fgets_lines fp with inspect (fgets 256 fp) => {
    | exist _ None _ := [];
    | exist _ (Some (line, rest)) H := line :: fgets_lines rest }.
Proof. eapply fgets_progress; eassumption. Qed.

(** The columns of a line of the table that the check looks at. *)
Record tcp_entry : Type := mkTcpEntry {
  local_addr : Z;
  local_port : Z;
  rem_addr : Z;
  rem_port : Z;
  uid_column : Z
}.

(** A line read as the table's format has it, when all twelve leading
    columns are there. *)
Definition parse_tcp_line (line : string) : option tcp_entry :=
  match sscanf tcp_line_format (c_str line) with
  | [_; la; lp; ra; rp; _; _; _; _; _; _; uid] => Some (mkTcpEntry la lp ra rp uid)
  | _ => None
  end.

(** The line is a data line of the connection of the socket: addresses
    as the socket has them, ports swapped to host order. *)
Definition line_matches (be : bool) (our peer : sockaddr_in) (line : string) : bool :=
  match parse_tcp_line line with
  | Some en =>
      (local_addr en =? sin_addr our)
      && (local_port en =? ntohs be (sin_port our))
      && (rem_addr en =? sin_addr peer)
      && (rem_port en =? ntohs be (sin_port peer))
  | None => false
  end.

(** The UID column of a line, as a [uid_t]. *)
Definition line_uid (line : string) : Z :=
  match parse_tcp_line line with
  | Some en => to_unsigned (uid_column en)
  | None => 0
  end.

(** ** Launch and shutdown *)

(** What the launcher does to the world outside the handle, in order. *)
Inductive event : Type :=
| EvError (msg : string)             (* error, perrorf *)
| EvProgress (n : Z)                 (* guestfs___launch_send_progress *)
| EvSocket (fd : Z)                  (* socket returned fd *)
| EvPipe (rd wr : Z)                 (* pipe filled in {rd, wr} *)
| EvFork (child : Z)                 (* fork returned child in the parent *)
| EvAccept (fd : Z)                  (* the accept helper returned fd *)
| EvClose (fd : Z)
| EvKill (p : Z) (sig : Z)
| EvWaitpid (p : Z)
| EvWarnUid (uid : Z)                (* unexpected connection from UID *)
| EvAddDummyDrive.                   (* guestfs___add_dummy_appliance_drive *)

Definition SIGKILL : Z := 9.
Definition SIGTERM : Z := 15.

(** Modelled from the spec: the sentinel of guestfs_protocol.h, a header
    outside these sources; the first word of the message the daemon sends
    once it is up. *)
Definition GUESTFS_LAUNCH_FLAG : Z := 4126498805.   (* 0xf5f55ff5 *)

(** One answer of [guestfs___accept_from_daemon]: a failure, or a
    connected socket together with what [check_peer_euid] will find for
    it. *)
Inductive accept_outcome : Type :=
| AcceptFailed
| Accepted (fd : N) (peer : peer_env).

(** Modelled from the spec: [guestfs___recv_from_daemon] belongs to the
    framing layer, outside these sources.  It returns -1 or the size word
    of the message, and it is the framing layer that moves the handle to
    READY; [recv_state] is the state it leaves. *)
Record recv_outcome : Type := mkRecv {
  recv_ok : bool;
  recv_size : Z;
  recv_state : state
}.

(** The outcome of every call [launch_appliance] makes outside the
    process; each is consulted at most once, but for the connections,
    which are taken in order (the accept helper fails once no more
    arrive). *)
Record launch_env : Type := mkLaunchEnv {
  e_build_appliance : option (string * string * option string);
  e_qemu_run : cmd_outcome;
  e_socket : option N;
  e_bind : bool;
  e_listen : bool;
  e_getsockname : option Z;          (* the port bound, host order *)
  e_fcntl_sock : bool;
  e_pipe_w : option (N * N);
  e_pipe_r : option (N * N);
  e_fork : option positive;          (* the qemu child, seen from the parent *)
  e_fork_recovery : option positive;
  e_fcntl_w : bool;
  e_fcntl_r : bool;
  e_connections : list accept_outcome;
  e_geteuid : Z;
  e_close_sock : bool;
  e_fcntl_data : bool;
  e_recv : recv_outcome
}.

(** The handle, the locals [wfd] and [rfd] that the cleanup code reads,
    and the events so far. *)
Record frame : Type := mkFrame {
  hdl : guestfs_h;
  wfd0 : Z; wfd1 : Z;
  rfd0 : Z; rfd1 : Z;
  trace : list event
}.

(** How control leaves the straight line of the function. *)
Inductive exit : Type :=
| GotoCleanup0
| GotoCleanup1
| Return (v : Z).

Definition L (A : Type) : Type := frame -> (exit + A) * frame.

Definition ret {A} (a : A) : L A := fun f => (inr a, f).

Definition bind {A B} (m : L A) (k : A -> L B) : L B :=
  fun f =>
    match m f with
    | (inr a, f') => k a f'
    | (inl x, f') => (inl x, f')
    end.

Declare Scope launch_scope.
Delimit Scope launch_scope with launch.
Notation "x <- m ;; k" := (bind m (fun x => k))
  (at level 61, m at next level, right associativity) : launch_scope.
Notation "m ;; k" := (bind m (fun _ => k))
  (at level 61, right associativity) : launch_scope.

Definition leave {A} (x : exit) : L A := fun f => (inl x, f).

Definition emit (ev : event) : L unit :=
  fun f => (inr tt, mkFrame (hdl f) (wfd0 f) (wfd1 f) (rfd0 f) (rfd1 f)
                            (trace f ++ [ev])).

Definition get_g : L guestfs_h := fun f => (inr (hdl f), f).

Definition modify_g (u : guestfs_h -> guestfs_h) : L unit :=
  fun f => (inr tt, mkFrame (u (hdl f)) (wfd0 f) (wfd1 f) (rfd0 f) (rfd1 f)
                            (trace f)).

(** A call that works on the handle and returns a value. *)
Definition call_g {A} (fn : guestfs_h -> A * guestfs_h) : L A :=
  fun f => (inr (fst (fn (hdl f))),
            mkFrame (snd (fn (hdl f))) (wfd0 f) (wfd1 f) (rfd0 f) (rfd1 f) (trace f)).

Definition set_wfd (a b : Z) : L unit :=
  fun f => (inr tt, mkFrame (hdl f) a b (rfd0 f) (rfd1 f) (trace f)).

Definition set_rfd (a b : Z) : L unit :=
  fun f => (inr tt, mkFrame (hdl f) (wfd0 f) (wfd1 f) a b (trace f)).

Definition get_frame : L frame := fun f => (inr f, f).

Definition when (b : bool) (m : L unit) : L unit :=
  if b then m else ret tt.

Local Open Scope launch_scope.

(** The accept loop: connections are taken until one passes the check. *)
Fixpoint accept_loop (euid : Z) (conns : list accept_outcome) : L Z :=
  match conns with
  | [] => leave GotoCleanup1
  | AcceptFailed :: _ => leave GotoCleanup1
  | Accepted fd peer :: conns' =>
      let r := Z.of_N fd in
      emit (EvAccept r) ;;
      match check_peer_euid peer with
      | inl _ => emit (EvError "check_peer_euid") ;; leave GotoCleanup1
      | inr uid =>
          if negb (uid =? euid) then
            emit (EvWarnUid uid) ;;
            emit (EvClose r) ;;
            accept_loop euid conns'
          else ret r
      end
  end.

(** The body of [launch_appliance] in the parent, up to [return 0]. *)
Definition launch_body (e : launch_env) : L Z :=
  g <- get_g ;;
  (if (nr_drives g =? 0)%nat then
     emit (EvError "you must call guestfs_add_drive before guestfs_launch") ;;
     leave (Return (-1))
   else ret tt) ;;
  emit (EvProgress 0) ;;
  bundle <- match e_build_appliance e with
            | None => leave (Return (-1))
            | Some b => ret b
            end ;;
  let '(kernel, initrd, appliance) := bundle in
  let has_appliance_drive := match appliance with Some _ => true | None => false end in
  emit (EvProgress 3) ;;
  (* Get qemu help text and version. *)
  r <- call_g (fun g => qemu_supports (e_qemu_run e) g None) ;;
  (if r =? -1 then leave GotoCleanup0 else ret tt) ;;
  (* Null vmchannel: the listening socket. *)
  match e_socket e with
  | None =>
      modify_g (set_sock (-1)) ;; emit (EvError "socket") ;; leave GotoCleanup0
  | Some fd =>
      modify_g (set_sock (Z.of_N fd)) ;; emit (EvSocket (Z.of_N fd))
  end ;;
  (if e_bind e then ret tt
   else emit (EvError "bind") ;; leave GotoCleanup0) ;;
  (if e_listen e then ret tt
   else emit (EvError "listen") ;; leave GotoCleanup0) ;;
  null_vmchannel_port <-
    match e_getsockname e with
    | Some port => ret port
    | None => emit (EvError "getsockname") ;; leave GotoCleanup0
    end ;;
  (if e_fcntl_sock e then ret tt
   else emit (EvError "fcntl") ;; leave GotoCleanup0) ;;
  g <- get_g ;;
  (if negb (direct g) then
     match e_pipe_w e with
     | None => emit (EvError "pipe") ;; leave GotoCleanup0
     | Some (a, b) =>
         set_wfd (Z.of_N a) (Z.of_N b) ;; emit (EvPipe (Z.of_N a) (Z.of_N b)) ;;
         match e_pipe_r e with
         | None => emit (EvError "pipe") ;; leave GotoCleanup0
         | Some (c, d) =>
             set_rfd (Z.of_N c) (Z.of_N d) ;; emit (EvPipe (Z.of_N c) (Z.of_N d))
         end
     end
   else ret tt) ;;
  r <- match e_fork e with
       | None =>
           emit (EvError "fork") ;;
           f <- get_frame ;;
           when (negb (direct g))
             (emit (EvClose (wfd0 f)) ;; emit (EvClose (wfd1 f)) ;;
              emit (EvClose (rfd0 f)) ;; emit (EvClose (rfd1 f))) ;;
           leave GotoCleanup0
       | Some child => emit (EvFork (Zpos child)) ;; ret (Zpos child)
       end ;;
  (* Parent (library). *)
  modify_g (upd_app (set_pid r)) ;;
  modify_g (upd_app (set_recoverypid (-1))) ;;
  when (recovery_proc g)
    (match e_fork_recovery e with
     | Some child =>
         emit (EvFork (Zpos child)) ;;
         modify_g (upd_app (set_recoverypid (Zpos child)))
     | None => modify_g (upd_app (set_recoverypid (-1)))
     end) ;;
  (if negb (direct g) then
     (* Close the other ends of the pipe. *)
     f <- get_frame ;;
     emit (EvClose (wfd0 f)) ;;
     emit (EvClose (rfd1 f)) ;;
     (if e_fcntl_w e && e_fcntl_r e then ret tt
      else emit (EvError "fcntl") ;; leave GotoCleanup1) ;;
     modify_g (set_fd0 (wfd1 f)) ;;
     modify_g (set_fd1 (rfd0 f)) ;;
     set_wfd (wfd0 f) (-1) ;;
     set_rfd (-1) (rfd1 f)
   else ret tt) ;;
  modify_g (set_state LAUNCHING) ;;
  r <- accept_loop (e_geteuid e) (e_connections e) ;;
  (* Close the listening socket. *)
  g <- get_g ;;
  emit (EvClose (sock g)) ;;
  (if e_close_sock e then ret tt
   else
     emit (EvError "close: listening socket") ;;
     emit (EvClose r) ;;
     modify_g (set_sock (-1)) ;;
     leave GotoCleanup1) ;;
  modify_g (set_sock r) ;;
  (if e_fcntl_data e then ret tt
   else emit (EvError "fcntl") ;; leave GotoCleanup1) ;;
  modify_g (set_state (recv_state (e_recv e))) ;;
  (if recv_ok (e_recv e) then ret tt
   else emit (EvError "launch failed") ;; leave GotoCleanup1) ;;
  (if negb (recv_size (e_recv e) =? GUESTFS_LAUNCH_FLAG)
   then emit (EvError "launch failed") ;; leave GotoCleanup1
   else ret tt) ;;
  g <- get_g ;;
  (if negb (state_eqb (g_state g) READY)
   then emit (EvError "qemu launched and contacted daemon, but state != READY") ;;
        leave GotoCleanup1
   else ret tt) ;;
  emit (EvProgress 12) ;;
  when has_appliance_drive (emit EvAddDummyDrive) ;;
  ret 0.

(** The code from the label [cleanup1] down to [cleanup0]. *)
Definition cleanup1 : L unit :=
  g <- get_g ;;
  f <- get_frame ;;
  when (negb (direct g))
    (when (wfd1 f >=? 0) (emit (EvClose (wfd1 f))) ;;
     when (rfd1 f >=? 0) (emit (EvClose (rfd0 f)))) ;;
  when (pid (app g) >? 0) (emit (EvKill (pid (app g)) 9)) ;;
  when (recoverypid (app g) >? 0) (emit (EvKill (recoverypid (app g)) 9)) ;;
  when (pid (app g) >? 0) (emit (EvWaitpid (pid (app g)))) ;;
  when (recoverypid (app g) >? 0) (emit (EvWaitpid (recoverypid (app g)))) ;;
  when (fd0 g >=? 0) (emit (EvClose (fd0 g))) ;;
  when (fd1 g >=? 0) (emit (EvClose (fd1 g))) ;;
  modify_g (set_fd0 (-1)) ;;
  modify_g (set_fd1 (-1)) ;;
  modify_g (upd_app (set_pid 0)) ;;
  modify_g (upd_app (set_recoverypid 0)) ;;
  modify_g (set_launch_t timeval_zero).

(** The code from the label [cleanup0] to the end. *)
Definition cleanup0 : L Z :=
  g <- get_g ;;
  when (sock g >=? 0)
    (emit (EvClose (sock g)) ;; modify_g (set_sock (-1))) ;;
  modify_g (set_state CONFIG) ;;
  ret (-1).

(** [launch_appliance] as the parent process runs it: the value
    returned, the handle left behind and the events, in order. *)
Definition launch_appliance (e : launch_env) (g : guestfs_h) :
    Z * guestfs_h * list event :=
  let finish (r : (exit + Z) * frame) :=
    match r with
    | (inr v, f) => (v, hdl f, trace f)
    | (inl (Return v), f) => (v, hdl f, trace f)
    | (inl _, f) => (-1, hdl f, trace f)           (* not reached *)
    end in
  match launch_body e (mkFrame g 0 0 0 0 []) with
  | (inr v, f) => (v, hdl f, trace f)
  | (inl (Return v), f) => (v, hdl f, trace f)
  | (inl GotoCleanup1, f) => finish ((cleanup1 ;; cleanup0) f)
  | (inl GotoCleanup0, f) => finish (cleanup0 f)
  end.

(** [shutdown_appliance]; [wait_qemu] is what [waitpid] on the qemu
    process gives, should it be called: the status, or [None] for -1. *)
Definition shutdown_appliance (wait_qemu : option Z) (g : guestfs_h)
    (check_for_errors : Z) : Z * guestfs_h * list event :=
  let a := app g in
  let tr := if pid a >? 0 then [EvKill (pid a) SIGTERM] else [] in
  let tr := (tr ++ (if recoverypid a >? 0 then [EvKill (recoverypid a) 9] else []))%list in
  let '(ret, tr) :=
    if recovery_proc g && (pid a >? 0) then
      match wait_qemu with
      | None => (-1, (tr ++ [EvWaitpid (pid a); EvError "waitpid (qemu)"])%list)
      | Some status =>
          if negb (WIFEXITED status) || negb (WEXITSTATUS status =? 0)
          then (-1, (tr ++ [EvWaitpid (pid a); EvError "external command failed"])%list)
          else (0, (tr ++ [EvWaitpid (pid a)])%list)
      end
    else (0, tr) in
  let tr := (tr ++ (if recoverypid a >? 0 then [EvWaitpid (recoverypid a)] else []))%list in
  let g := upd_app (set_recoverypid 0) g in
  let g := upd_app (set_pid 0) g in
  let g := upd_app (set_qemu_help None) g in
  let g := upd_app (set_qemu_version None) g in
  let g := upd_app (set_qemu_devices None) g in
  (ret, g, tr).

Local Close Scope launch_scope.

(** ** What the cleanup code leaves behind *)

(** The state [cleanup1] and [cleanup0] leave when a child was forked:
    the handle back in CONFIG with no socket, no stdio descriptor, no
    process and no launch time; every child forked killed with signal 9
    and waited for; the listening socket and the ends of the pipes
    closed. *)
Definition cleaned_up_after_fork (g' : guestfs_h) (tr : list event) : Prop :=
  g_state g' = CONFIG /\ sock g' = -1 /\ fd0 g' = -1 /\ fd1 g' = -1
  /\ pid (app g') = 0 /\ recoverypid (app g') = 0
  /\ launch_t g' = timeval_zero
  /\ (forall child, In (EvFork child) tr ->
        In (EvKill child 9) tr /\ In (EvWaitpid child) tr)
  /\ (forall s, In (EvSocket s) tr -> In (EvClose s) tr)
  /\ (forall a b, In (EvPipe a b) tr -> In (EvClose a) tr /\ In (EvClose b) tr).

(** The state [cleanup0] alone leaves: the handle in CONFIG, the
    listening socket closed, and the process identifiers, the stdio
    descriptors and the launch time as [g] had them. *)
Definition cleaned_up_before_fork (g g' : guestfs_h) (tr : list event) : Prop :=
  g_state g' = CONFIG /\ sock g' = -1
  /\ (forall s, In (EvSocket s) tr -> In (EvClose s) tr)
  /\ pid (app g') = pid (app g) /\ recoverypid (app g') = recoverypid (app g)
  /\ launch_t g' = launch_t g /\ fd0 g' = fd0 g /\ fd1 g' = fd1 g.

(** ** The handles the back end can be given *)

(** A handle as it is created: [g->app] zeroed, in particular
    [virtio_scsi] 0, "untested (after handle creation)". *)
Definition fresh (g : guestfs_h) : Prop :=
  g_state g = CONFIG
  /\ pid (app g) = 0 /\ recoverypid (app g) = 0
  /\ qemu_help (app g) = None
  /\ qemu_version (app g) = None
  /\ qemu_devices (app g) = None
  /\ qemu_version_major (app g) = 0
  /\ qemu_version_minor (app g) = 0
  /\ virtio_scsi (app g) = 0.

(** The probe cache of [g->app] is written by this file only; the rest
    of the library changes the other fields of the handle. *)
Definition same_probe_cache (g g' : guestfs_h) : Prop :=
  qemu_help (app g') = qemu_help (app g)
  /\ qemu_version (app g') = qemu_version (app g)
  /\ qemu_devices (app g') = qemu_devices (app g)
  /\ qemu_version_major (app g') = qemu_version_major (app g)
  /\ qemu_version_minor (app g') = qemu_version_minor (app g)
  /\ virtio_scsi (app g') = virtio_scsi (app g).

(** One operation on the handle. *)
Inductive backend_step : guestfs_h -> guestfs_h -> Prop :=
| step_test_qemu run g :
    backend_step g (snd (test_qemu run g))
| step_qemu_supports run g opt :
    backend_step g (snd (qemu_supports run g opt))
| step_qemu_supports_device run g name :
    backend_step g (snd (qemu_supports_device run g name))
| step_qemu_supports_virtio_scsi run g :
    backend_step g (snd (qemu_supports_virtio_scsi run g))
| step_qemu_drive_param run g drv index :
    backend_step g (snd (qemu_drive_param run g drv index))
| step_max_disks run g :
    backend_step g (snd (max_disks_appliance run g))
| step_launch e g :
    backend_step g (snd (fst (launch_appliance e g)))
| step_shutdown w g c :
    backend_step g (snd (fst (shutdown_appliance w g c)))
| step_elsewhere g g' :
    same_probe_cache g g' -> backend_step g g'.

(** The handles reached from a fresh one. *)
Inductive reachable : guestfs_h -> Prop :=
| reach_fresh g : fresh g -> reachable g
| reach_step g g' : reachable g -> backend_step g g' -> reachable g'.

(** What holds of the probe cache of every such handle: the bus is never
    decided for virtio-scsi and the device text is absent or empty. *)
Definition never_scsi (g : guestfs_h) : Prop :=
  virtio_scsi (app g) <> 1
  /\ (qemu_devices (app g) = None \/ qemu_devices (app g) = Some "").

Definition fresh_app : app_data := mkApp 0 0 None None None 0 0 0 [].

Definition sample_drive : drive := mkDrive "/a/b.img" None None None false false.

Definition sample_handle : guestfs_h :=
  mkHandle CONFIG [sample_drive] "/usr/bin/qemu-kvm" false false true false
           1 500 [] (-1) (-1) (-1) (mkTimeval 1380000000 0) fresh_app.

(** A handle with a cache as a qemu 1.1 listing virtio-scsi-pci would
    fill it. *)
Definition handle_qemu_1_1 : guestfs_h :=
  upd_app (fun _ => mkApp 0 0 (Some "-machine -nodefaults") (Some "QEMU emulator version 1.1.2")
                          (Some "name virtio-scsi-pci, bus PCI") 1 1 0 [])
          sample_handle.

Definition sample_help_run : cmd_outcome := CmdFinished 0 "-machine -nodefaults -global".

(** ** Sample data *)

Definition nl : string := String NEWLINE EmptyString.

(** A table as the kernel prints it: a listener, the accepted end of a
    connection and the connecting end. *)
Definition sample_proc_net_tcp : string :=
  "  sl  local_address rem_address   st tx_queue rx_queue tr tm->when retrnsmt   uid  timeout inode" ++ nl ++
  "   0: 0100007F:0CEA 00000000:0000 0A 00000000:00000000 00:00000000 00000000  1000        0 17977 1 ffff880036d10000 100 0 0 10 0" ++ nl ++
  "   1: 0100007F:0CEA 0100007F:A3F2 01 00000000:00000000 00:00000000 00000000  1000        0 27977 1 ffff880036d10000 100 0 0 10 0" ++ nl ++
  "   2: 0100007F:A3F2 0100007F:0CEA 01 00000000:00000000 00:00000000 00000000   107        0 27978 1 ffff880036d10000 100 0 0 10 0" ++ nl.

(** 127.0.0.1:3306 and 127.0.0.1:41970 on a little-endian host. *)
Definition sample_our : sockaddr_in := mkSockaddr AF_INET 59916 16777343.
Definition sample_peer : sockaddr_in := mkSockaddr AF_INET 62115 16777343.

Definition sample_peer_env : peer_env :=
  mkPeerEnv false (Some sample_peer) (Some sample_our) (Some sample_proc_net_tcp).

(** A launch in which every call succeeds and the daemon is the first
    to connect. *)
Definition env_ok : launch_env :=
  mkLaunchEnv (Some ("/tmp/kernel", "/tmp/initrd", Some "/tmp/root"))
              sample_help_run
              (Some 3%N) true true (Some 3306) true
              (Some (4%N, 5%N)) (Some (6%N, 7%N))
              (Some 1000%positive) (Some 1001%positive)
              true true
              [Accepted 8%N sample_peer_env] 1000
              true true
              (mkRecv true GUESTFS_LAUNCH_FLAG READY).

(** The same, but for [bind], which fails. *)
Definition env_bind_fails : launch_env :=
  mkLaunchEnv (e_build_appliance env_ok) (e_qemu_run env_ok) (e_socket env_ok)
              false
              (e_listen env_ok) (e_getsockname env_ok) (e_fcntl_sock env_ok)
              (e_pipe_w env_ok) (e_pipe_r env_ok) (e_fork env_ok)
              (e_fork_recovery env_ok) (e_fcntl_w env_ok) (e_fcntl_r env_ok)
              (e_connections env_ok) (e_geteuid env_ok) (e_close_sock env_ok)
              (e_fcntl_data env_ok) (e_recv env_ok).

(** A handle no drive was added to. *)
Definition no_drive_handle : guestfs_h :=
  mkHandle CONFIG [] "/usr/bin/qemu-kvm" false false true false
           1 500 [] (-1) (-1) (-1) (mkTimeval 1380000000 0) fresh_app.

(** A launch that fails at the handshake: no message comes. *)
Definition env_recv_fails : launch_env :=
  mkLaunchEnv (e_build_appliance env_ok) (e_qemu_run env_ok) (e_socket env_ok)
              (e_bind env_ok)
              (e_listen env_ok) (e_getsockname env_ok) (e_fcntl_sock env_ok)
              (e_pipe_w env_ok) (e_pipe_r env_ok) (e_fork env_ok)
              (e_fork_recovery env_ok) (e_fcntl_w env_ok) (e_fcntl_r env_ok)
              (e_connections env_ok) (e_geteuid env_ok) (e_close_sock env_ok)
              (e_fcntl_data env_ok) (mkRecv false 0 CONFIG).

(** A handle that was launched already. *)
Definition handle_ready : guestfs_h := set_state READY sample_handle.

(** ** Reading back, and what a launch leaves behind *)

(** Reading an option value back the way the doubling is meant: two
    commas stand for one, a single comma ends the value. *)
Fixpoint read_value (s : string) : string * string :=
  match s with
  | EmptyString => (EmptyString, EmptyString)
  | String c1 EmptyString =>
      if Ascii.eqb c1 COMMA then (EmptyString, EmptyString)
      else (s, EmptyString)
  | String c1 (String c2 s' as t) =>
      if Ascii.eqb c1 COMMA then
        if Ascii.eqb c2 COMMA
        then let (v, r) := read_value s' in (String COMMA v, r)
        else (EmptyString, t)
      else let (v, r) := read_value t in (String c1 v, r)
  end.

(** The three values the source expects of [iface]. *)
Definition iface_expected (drv : drive) : Prop :=
  iface drv = None \/ iface drv = Some "ide" \/ iface drv = Some "virtio".

(** [get_pid_appliance]: the value returned and the error raised, if
    any. *)
Definition get_pid_appliance (g : guestfs_h) : Z * list event :=
  if pid (app g) >? 0 then (pid (app g), [])
  else (-1, [EvError "get_pid: no qemu subprocess"]).

(** A connection the accept loop turns away: it comes from another
    user. *)
Definition stranger (euid : Z) (c : accept_outcome) : Prop :=
  match c with
  | AcceptFailed => False
  | Accepted _ peer =>
      match check_peer_euid peer with
      | inr uid => uid <> euid
      | inl _ => False
      end
  end.

(** What the loop does with such a connection. *)
Definition turned_away (c : accept_outcome) : list event :=
  match c with
  | AcceptFailed => []
  | Accepted fd peer =>
      match check_peer_euid peer with
      | inr uid => [EvAccept (Z.of_N fd); EvWarnUid uid; EvClose (Z.of_N fd)]
      | inl _ => []
      end
  end.

(** The connection the loop ended with, and the events it added. *)
Definition accepted_from (euid : Z) (conns : list accept_outcome) (r : Z)
    (evs : list event) : Prop :=
  exists strangers fd peer rest,
    conns = (strangers ++ Accepted fd peer :: rest)%list
    /\ Forall (stranger euid) strangers
    /\ check_peer_euid peer = inr euid
    /\ r = Z.of_N fd
    /\ evs = (flat_map turned_away strangers ++ [EvAccept r])%list.

(** What a launch that returns 0 leaves behind. *)
Definition launched (e : launch_env) (g g' : guestfs_h) (tr : list event) : Prop :=
  g_state g' = READY
  /\ (exists fd peer,
        In (Accepted fd peer) (e_connections e)
        /\ check_peer_euid peer = inr (e_geteuid e)
        /\ sock g' = Z.of_N fd)
  /\ (exists vm, e_fork e = Some vm /\ pid (app g') = Zpos vm)
  /\ recoverypid (app g') =
       (if recovery_proc g
        then match e_fork_recovery e with Some p => Zpos p | None => -1 end
        else -1)
  /\ (exists s, e_socket e = Some s /\ In (EvClose (Z.of_N s)) tr)
  /\ (if direct g
      then fd0 g' = fd0 g /\ fd1 g' = fd1 g /\ (forall a b, ~ In (EvPipe a b) tr)
      else exists a b c d,
             e_pipe_w e = Some (a, b) /\ e_pipe_r e = Some (c, d)
             /\ fd0 g' = Z.of_N b /\ fd1 g' = Z.of_N c
             /\ In (EvClose (Z.of_N a)) tr /\ In (EvClose (Z.of_N d)) tr)
  /\ recv_ok (e_recv e) = true
  /\ recv_size (e_recv e) = GUESTFS_LAUNCH_FLAG
  /\ recv_state (e_recv e) = READY
  /\ qemu_help (app g') <> None.

(** Two connections: one from another user, then the daemon. *)
Definition stranger_peer_env : peer_env :=
  mkPeerEnv false (Some sample_our) (Some sample_peer) (Some sample_proc_net_tcp).

Definition env_stranger_first : launch_env :=
  mkLaunchEnv (e_build_appliance env_ok) (e_qemu_run env_ok) (e_socket env_ok)
              (e_bind env_ok)
              (e_listen env_ok) (e_getsockname env_ok) (e_fcntl_sock env_ok)
              (e_pipe_w env_ok) (e_pipe_r env_ok) (e_fork env_ok)
              (e_fork_recovery env_ok) (e_fcntl_w env_ok) (e_fcntl_r env_ok)
              [Accepted 8%N stranger_peer_env; Accepted 9%N sample_peer_env]
              (e_geteuid env_ok) (e_close_sock env_ok)
              (e_fcntl_data env_ok) (e_recv env_ok).

(** A launch whose probe of the binary fails. *)
Definition env_probe_fails : launch_env :=
  mkLaunchEnv (e_build_appliance env_ok) (CmdError None) (e_socket env_ok)
              (e_bind env_ok)
              (e_listen env_ok) (e_getsockname env_ok) (e_fcntl_sock env_ok)
              (e_pipe_w env_ok) (e_pipe_r env_ok) (e_fork env_ok)
              (e_fork_recovery env_ok) (e_fcntl_w env_ok) (e_fcntl_r env_ok)
              (e_connections env_ok) (e_geteuid env_ok) (e_close_sock env_ok)
              (e_fcntl_data env_ok) (e_recv env_ok).

(** * Properties *)

(** ** The shell-like splitter *)

Lemma shell_loop_step options acc :
  shell_loop options acc =
  match options with
  | EmptyString => inr acc
  | String _ _ =>
      match shell_token options with
      | inl e => inl e
      | inr (tok, rest) => shell_loop rest (acc ++ [tok])%list
      end
  end.
Proof.
  destruct options as [|a s]; simp shell_loop; [reflexivity|].
  assert (Hgen : forall x (H : shell_token (String a s) = x),
            shell_loop_unfold_clause_2 a s (exist _ x H) acc =
            match x with
            | inl e => inl e
            | inr (tok, rest) => shell_loop rest (acc ++ [tok])%list
            end).
  { intros [e|[tok rest]] H; simp shell_loop; reflexivity. }
  apply Hgen.
Qed.

(** A token that opens with a quote and goes on with anything but a
    space or the end of the string ends the child: [strchr] starts at
    the opening quote and finds it. *)
Lemma shell_token_quoted q c s :
  q = CStr.SQUOTE \/ q = CStr.DQUOTE ->
  c <> CStr.SPACE -> c <> CStr.NUL ->
  shell_token (String q (String c s)) = inl (CannotParseQuoted (String q (String c s))).
Proof.
  intros Hq Hs Hn. unfold shell_token.
  assert (Hquoted : (Ascii.eqb q CStr.SQUOTE || Ascii.eqb q CStr.DQUOTE)%bool = true).
  { destruct Hq; subst; reflexivity. }
  assert (Hsp : Ascii.eqb q CStr.SPACE = false) by (destruct Hq; subst; reflexivity).
  change (CStr.char_at (String q (String c s)) 0) with q.
  rewrite Hquoted. cbv zeta.
  rewrite CStr_strchr_head.
  rewrite Hsp.
  change (CStr.char_at (String q (String c s)) 1) with c.
  apply Ascii.eqb_neq in Hs, Hn. rewrite Hs, Hn. reflexivity.
Qed.

Lemma append_assoc (a b c : string) : (a ++ b) ++ c = a ++ (b ++ c).
Proof. induction a as [|x a IH]; simpl; [reflexivity|]. rewrite IH. reflexivity. Qed.

Lemma append_nil_r (a : string) : a ++ "" = a.
Proof. induction a as [|x a IH]; simpl; [reflexivity|]. rewrite IH. reflexivity. Qed.

Lemma length_append (a b : string) :
  String.length (a ++ b) = (String.length a + String.length b)%nat.
Proof. induction a as [|x a IH]; simpl; [reflexivity|]. rewrite IH. reflexivity. Qed.

Lemma strchr_no_space w rest :
  no_space w ->
  CStr.strchr (w ++ String CStr.SPACE rest) CStr.SPACE = Some (String.length w).
Proof.
  induction w as [|c w IH]; simpl; intros H; [reflexivity|].
  destruct H as [Hc Hw]. apply Ascii.eqb_neq in Hc. rewrite Hc.
  rewrite (IH Hw). reflexivity.
Qed.

Lemma strchr_no_space_end w :
  no_space w -> CStr.strchr w CStr.SPACE = None.
Proof.
  induction w as [|c w IH]; simpl; intros H; [reflexivity|].
  destruct H as [Hc Hw]. apply Ascii.eqb_neq in Hc. rewrite Hc.
  rewrite (IH Hw). reflexivity.
Qed.

Lemma strndup_prefix w rest n :
  n = Z.of_nat (String.length w) -> CStr.strndup (w ++ rest) n = w.
Proof.
  revert n; induction w as [|c w IH]; intros n Hn.
  - simpl in Hn. subst n. destruct rest; reflexivity.
  - cbn [String.append CStr.strndup].
    destruct (Z.leb_spec n 0) as [H|H].
    + simpl String.length in Hn. lia.
    + rewrite IH; [reflexivity|]. simpl String.length in Hn. lia.
Qed.

Lemma advance_append w rest : CStr.advance (String.length w) (w ++ rest) = rest.
Proof. induction w as [|c w IH]; simpl; [destruct rest; reflexivity|exact IH]. Qed.

Lemma char_at_append w c rest :
  CStr.char_at (w ++ String c rest) (String.length w) = c.
Proof. unfold CStr.char_at. induction w as [|a w IH]; simpl; [reflexivity|exact IH]. Qed.

Lemma skip_spaces_word n w rest :
  word w -> skip_spaces (spaces n ++ w ++ rest) = w ++ rest.
Proof.
  intros Hw. induction n as [|n IH]; simpl.
  - destruct w as [|c w]; [destruct Hw|].
    destruct Hw as (_ & _ & Hc & _). simpl.
    apply Ascii.eqb_neq in Hc. rewrite Hc. reflexivity.
  - exact IH.
Qed.

Lemma advance_append_S w c rest :
  CStr.advance (S (String.length w)) (w ++ String c rest) = rest.
Proof. induction w as [|a w IH]; simpl; [destruct rest; reflexivity|exact IH]. Qed.

(** A turn of the loop on a word followed by a space. *)
Lemma shell_token_word w rest :
  word w -> strlen w < 2 ^ 64 ->
  shell_token (w ++ String CStr.SPACE rest) = inr (w, skip_spaces rest).
Proof.
  intros Hw Hlen. unfold shell_token.
  destruct w as [|c w]; [destruct Hw|].
  destruct Hw as (Hsq & Hdq & Hns).
  change (CStr.char_at (String c w ++ String CStr.SPACE rest) 0) with c.
  apply Ascii.eqb_neq in Hsq, Hdq. rewrite Hsq, Hdq. cbn [orb].
  rewrite (strchr_no_space (String c w) rest Hns).
  change (Ascii.eqb CStr.SPACE CStr.SPACE) with true. cbv iota.
  rewrite char_at_append.
  change (Ascii.eqb CStr.SPACE CStr.NUL) with false. cbv iota.
  change (CStr.advance 0 (String c w ++ String CStr.SPACE rest))
    with (String c w ++ String CStr.SPACE rest).
  rewrite advance_append_S.
  rewrite strndup_prefix; [reflexivity|].
  unfold CStr.size_t_of, strlen in *. rewrite Z.sub_0_r.
  apply Z.mod_small. lia.
Qed.

(** The last turn of the loop, on a word that ends the string. *)
Lemma shell_token_last_word w :
  word w -> strlen w < 2 ^ 64 ->
  shell_token w = inr (w, EmptyString).
Proof.
  intros Hw Hlen. unfold shell_token.
  destruct w as [|c w]; [destruct Hw|].
  destruct Hw as (Hsq & Hdq & Hns).
  change (CStr.char_at (String c w) 0) with c.
  apply Ascii.eqb_neq in Hsq, Hdq. rewrite Hsq, Hdq. cbn [orb].
  rewrite (strchr_no_space_end (String c w) Hns).
  change (Ascii.eqb CStr.SPACE CStr.SPACE) with true. cbn [negb]. cbv iota.
  unfold CStr.char_at. rewrite get_length_None.
  change (Ascii.eqb CStr.NUL CStr.NUL) with true. cbv iota.
  change (CStr.advance 0 (String c w)) with (String c w).
  replace (CStr.advance (String.length (String c w)) (String c w)) with EmptyString.
  - rewrite <- (append_nil_r (String c w)) at 1.
    rewrite strndup_prefix; [reflexivity|].
    unfold CStr.size_t_of, strlen in *. rewrite Z.sub_0_r.
    apply Z.mod_small. lia.
  - rewrite <- (append_nil_r (String c w)) at 2.
    rewrite advance_append. reflexivity.
Qed.

(** On words separated by spaces the splitter gives the words. *)
Lemma shell_loop_words ws last acc :
  Forall (fun wn => word (fst wn) /\ strlen (fst wn) < 2 ^ 64) ws ->
  word last -> strlen last < 2 ^ 64 ->
  shell_loop (join_words ws last) acc = inr (acc ++ map fst ws ++ [last])%list.
Proof.
  intros Hws Hl Hlen. revert acc.
  induction Hws as [|[w n] ws [Hw Hwlen] Hws IH]; intros acc.
  - simpl. rewrite shell_loop_step.
    destruct last as [|c l]; [destruct Hl|].
    rewrite (shell_token_last_word (String c l) Hl Hlen).
    rewrite shell_loop_step. reflexivity.
  - simpl in *. rewrite shell_loop_step.
    destruct w as [|c w]; [destruct Hw|].
    cbn [String.append].
    change (String c (w ++ String CStr.SPACE (spaces n ++ join_words ws last)))
      with (String c w ++ String CStr.SPACE (spaces n ++ join_words ws last)).
    rewrite (shell_token_word (String c w) _ Hw Hwlen).
    assert (Hskip : skip_spaces (spaces n ++ join_words ws last) = join_words ws last).
    { destruct ws as [|[w' n'] ws'].
      - simpl. rewrite <- (append_nil_r last) at 1.
        rewrite skip_spaces_word by assumption. apply append_nil_r.
      - simpl. inversion Hws as [|? ? [Hw' _] _]; subst. simpl in Hw'.
        apply skip_spaces_word. exact Hw'. }
    rewrite Hskip, IH. rewrite <- app_assoc. reflexivity.
Qed.

(** C2, at the input ['a b']: the token between the quotes is never
    produced; the child ends on "cannot parse quoted string". *)
Theorem add_cmdline_shell_unquoted_quoted_token_fails (g : guestfs_h) :
  add_cmdline_shell_unquoted g "'a b'" = inl (CannotParseQuoted "'a b'").
Proof.
  unfold add_cmdline_shell_unquoted.
  rewrite shell_loop_step.
  rewrite (shell_token_quoted "'"%char "a"%char " b'");
    [reflexivity|left; reflexivity|discriminate|discriminate].
Qed.

(** ** The peer check *)

Lemma scan_tcp_table_step be our peer fp :
  scan_tcp_table be our peer fp =
  match fgets 256 fp with
  | None => inl ErrNoMatchingConnection
  | Some (line, rest) =>
      match tcp_line_uid be our peer line with
      | Some uid => inr uid
      | None => scan_tcp_table be our peer rest
      end
  end.
Proof.
  simp scan_tcp_table.
  assert (Hgen : forall x (H : fgets 256 fp = x),
            scan_tcp_table_unfold_clause_1 be our peer fp (exist _ x H) =
            match x with
            | None => inl ErrNoMatchingConnection
            | Some (line, rest) =>
                match tcp_line_uid be our peer line with
                | Some uid => inr uid
                | None => scan_tcp_table be our peer rest
                end
            end).
  { intros [[line rest]|] H; simp scan_tcp_table; [|reflexivity].
    destruct (tcp_line_uid be our peer line); simp scan_tcp_table; reflexivity. }
  apply Hgen.
Qed.

Lemma fgets_lines_step fp :
  fgets_lines fp =
  match fgets 256 fp with
  | None => []
  | Some (line, rest) => line :: fgets_lines rest
  end.
Proof.
  simp fgets_lines.
  assert (Hgen : forall x (H : fgets 256 fp = x),
            fgets_lines_unfold_clause_1 fp (exist _ x H) =
            match x with
            | None => []
            | Some (line, rest) => line :: fgets_lines rest
            end).
  { intros [[line rest]|] H; simp fgets_lines; reflexivity. }
  apply Hgen.
Qed.

(** The test of the loop body, through the parsed columns. *)
Lemma tcp_line_uid_columns be our peer line :
  tcp_line_uid be our peer line =
  if line_matches be our peer line then Some (line_uid line) else None.
Proof.
  unfold tcp_line_uid, line_matches, line_uid, parse_tcp_line.
  destruct (sscanf tcp_line_format (c_str line)) as [|x0 [|x1 [|x2 [|x3 [|x4
    [|x5 [|x6 [|x7 [|x8 [|x9 [|x10 [|x11 [|x12 l]]]]]]]]]]]]]; try reflexivity.
Qed.

(** The loop returns at the first line that matches. *)
Lemma scan_tcp_table_find be our peer fp :
  scan_tcp_table be our peer fp =
  match find (line_matches be our peer) (fgets_lines fp) with
  | Some line => inr (line_uid line)
  | None => inl ErrNoMatchingConnection
  end.
Proof.
  remember (String.length fp) as n eqn:Hn.
  revert fp Hn. induction n as [n IH] using lt_wf_ind. intros fp Hn.
  rewrite scan_tcp_table_step, fgets_lines_step.
  destruct (fgets 256 fp) as [[line rest]|] eqn:E; [|reflexivity].
  simpl. rewrite tcp_line_uid_columns.
  destruct (line_matches be our peer line); [reflexivity|].
  apply (IH (String.length rest)); [|reflexivity].
  subst n. eapply fgets_progress; eassumption.
Qed.

(** A UID read with [%d] and stored through [rtn] is the number in the
    column, whatever its size as a [uid_t]. *)
Lemma uid_through_int v :
  0 <= v < 2 ^ 32 -> to_unsigned (to_int (strtol_value false v)) = v.
Proof.
  intros H. unfold to_unsigned, to_int, strtol_value, LONG_MIN, LONG_MAX.
  rewrite Z.min_r by lia. rewrite Z.max_r by lia.
  rewrite Zminus_mod_idemp_l.
  replace (v + 2 ^ 31 - 2 ^ 31) with v by lia.
  apply Z.mod_small. exact H.
Qed.

(** The columns of a line as the kernel prints it. *)
Example parse_tcp_line_sample :
  parse_tcp_line
    "   2: 0100007F:A3F2 0100007F:0CEA 01 00000000:00000000 00:00000000 00000000   107        0 27978 1 ffff880036d10000 100 0 0 10 0"
  = Some (mkTcpEntry 16777343 41970 16777343 3306 107).
Proof. vm_compute. reflexivity. Qed.

(** C1: with a peer that is IPv4 and loopback, [check_peer_euid] returns
    the UID column of the first line after the header whose local and
    remote addresses are those of the socket as stored and whose ports
    are the socket's ports swapped to host order, and fails when no line
    matches; with any other peer it fails. *)
Theorem check_peer_euid_first_matching_line (e : peer_env) (peer : sockaddr_in) :
  getpeername e = Some peer ->
  (sin_family peer = AF_INET /\
   ntohl (big_endian e) (sin_addr peer) = INADDR_LOOPBACK ->
   forall our fp header lines,
     getsockname e = Some our ->
     proc_net_tcp e = Some fp ->
     fgets_lines fp = header :: lines ->
     check_peer_euid e =
     match find (line_matches (big_endian e) our peer) lines with
     | Some line => inr (line_uid line)
     | None => inl ErrNoMatchingConnection
     end)
  /\
  (sin_family peer <> AF_INET \/
   ntohl (big_endian e) (sin_addr peer) <> INADDR_LOOPBACK ->
   check_peer_euid e = inl ErrUnexpectedPeer).
Proof.
  intros Hpeer. unfold check_peer_euid. rewrite Hpeer. split.
  - intros [Hfam Hlo] our fp header lines Hour Hfp Hlines.
    rewrite Hfam, Hlo, Hour, Hfp. simpl negb. cbv iota.
    rewrite fgets_lines_step in Hlines.
    destruct (fgets 256 fp) as [[l rest]|]; [|discriminate].
    injection Hlines as _ <-.
    apply scan_tcp_table_find.
  - intros [Hfam|Hlo].
    + apply Z.eqb_neq in Hfam. rewrite Hfam. reflexivity.
    + apply Z.eqb_neq in Hlo. rewrite Hlo. rewrite orb_true_r. reflexivity.
Qed.

Lemma check_peer_euid_first_matching_line_witness :
  check_peer_euid sample_peer_env = inr 1000.
Proof.
  destruct (check_peer_euid_first_matching_line sample_peer_env sample_peer eq_refl)
    as [H _].
  rewrite (H (conj eq_refl eq_refl) sample_our sample_proc_net_tcp
             (hd EmptyString (fgets_lines sample_proc_net_tcp))
             (tl (fgets_lines sample_proc_net_tcp))
             eq_refl eq_refl ltac:(vm_compute; reflexivity)).
  vm_compute. reflexivity.
Defined.

(** ** The drive parameter *)

Lemma strndup_all s n : strlen s <= n -> CStr.strndup s n = s.
Proof.
  unfold strlen.
  revert n; induction s as [|a s IH]; simpl String.length; intros n H; [reflexivity|].
  simpl. destruct (Z.leb_spec n 0); [lia|].
  rewrite IH by lia. reflexivity.
Qed.

(** The copying loop appends the escaped path to what [r] holds. *)
Lemma copy_path_escaped_spec p r :
  copy_path_escaped p r = r ++ escape_commas p.
Proof.
  revert r; induction p as [|c p IH]; intros r; simpl.
  - rewrite append_nil_r. reflexivity.
  - destruct (Ascii.eqb c COMMA); rewrite IH, append_assoc; reflexivity.
Qed.

Lemma escape_commas_length p :
  (String.length (escape_commas p) <= 2 * String.length p)%nat.
Proof.
  induction p as [|c p IH]; simpl; [lia|].
  destruct (Ascii.eqb c COMMA); simpl; lia.
Qed.

(** C3: the parameter is [file=] and the path with its commas doubled,
    then [,snapshot=on] iff readonly, [,cache=none] iff use_cache_none,
    [,format=] and the format iff one is set, [,serial=] and the label
    iff one is set, and last [,if=] with the drive's iface when set, else
    [none] when virtio-scsi is chosen, else [virtio]; the buffer never
    cuts it short. *)
Theorem qemu_drive_param_grammar (run : cmd_outcome) (g : guestfs_h)
    (drv : drive) (index : nat) :
  fst (qemu_drive_param run g drv index) =
  "file=" ++ escape_commas (path drv)
  ++ (if readonly drv then ",snapshot=on" else "")
  ++ (if use_cache_none drv then ",cache=none" else "")
  ++ (match format drv with Some f => ",format=" ++ f | None => "" end)
  ++ (match disk_label drv with Some l => ",serial=" ++ l | None => "" end)
  ++ ",if="
  ++ (match iface drv with
      | Some i => i
      | None =>
          if fst (qemu_supports_virtio_scsi run g) =? 0 then "virtio" else "none"
      end).
Proof.
  unfold qemu_drive_param.
  rewrite copy_path_escaped_spec.
  set (text_of := fun iface_s : string =>
    (if readonly drv then ",snapshot=on" else "") ++
    (if use_cache_none drv then ",cache=none" else "") ++
    (match format drv with Some _ => ",format=" | None => "" end) ++
    (match format drv with Some f => f | None => "" end) ++
    (match disk_label drv with Some _ => ",serial=" | None => "" end) ++
    (match disk_label drv with Some l => l | None => "" end) ++
    ",if=" ++ iface_s).
  set (len := 128 + strlen (path drv) * 2 + strlen_opt (iface drv)
              + strlen_opt (format drv) + strlen_opt (disk_label drv)).
  set (i := strlen ("file=" ++ escape_commas (path drv))).
  assert (Hi : i <= 5 + 2 * strlen (path drv)).
  { unfold i, strlen. rewrite length_append.
    pose proof (escape_commas_length (path drv)). simpl String.length. lia. }
  assert (Hfit : forall iface_s,
            strlen iface_s <= 6 + strlen_opt (iface drv) ->
            snprintf (len - i) (text_of iface_s) = text_of iface_s).
  { intros iface_s Hs. unfold snprintf.
    assert (Htext : strlen (text_of iface_s)
                    <= 12 + 11 + 8 + strlen_opt (format drv) + 8
                       + strlen_opt (disk_label drv) + 4 + strlen iface_s).
    { unfold text_of, strlen_opt, strlen in *.
      repeat rewrite length_append.
      destruct (readonly drv), (use_cache_none drv), (format drv), (disk_label drv);
        simpl String.length; lia. }
    assert (Hpos : 0 <= strlen_opt (iface drv)).
    { unfold strlen_opt, strlen. destruct (iface drv); lia. }
    destruct (Z.leb_spec (len - i) 0) as [Hle|Hgt].
    - exfalso. unfold len in Hle. unfold strlen_opt, strlen in *.
      destruct (format drv), (disk_label drv); lia.
    - apply strndup_all. unfold len. lia. }
  assert (Hshape : forall iface_s,
            "file=" ++ escape_commas (path drv) ++ text_of iface_s =
            "file=" ++ escape_commas (path drv)
            ++ (if readonly drv then ",snapshot=on" else "")
            ++ (if use_cache_none drv then ",cache=none" else "")
            ++ (match format drv with Some f => ",format=" ++ f | None => "" end)
            ++ (match disk_label drv with Some l => ",serial=" ++ l | None => "" end)
            ++ ",if=" ++ iface_s).
  { intros iface_s. unfold text_of.
    destruct (format drv), (disk_label drv); rewrite ?append_assoc; reflexivity. }
  unfold text_of in Hfit, Hshape. cbv beta in Hfit, Hshape. clear text_of.
  destruct (iface drv) as [s|] eqn:Hif.
  - cbv beta iota zeta. unfold fst.
    rewrite Hfit by (unfold strlen_opt; lia).
    rewrite append_assoc. apply Hshape.
  - destruct (qemu_supports_virtio_scsi run g) as [v g'].
    unfold fst at 2.
    destruct (v =? 0); cbv beta iota zeta; unfold negb, fst;
      rewrite Hfit by (unfold strlen_opt, strlen; simpl; lia);
      rewrite append_assoc; apply Hshape.
Qed.

(** A path with commas, on a handle whose probe finds no virtio-scsi. *)
Example qemu_drive_param_commas :
  fst (qemu_drive_param sample_help_run sample_handle
         (mkDrive "/a,b,c.img" None None None false false) 0)
  = "file=/a,,b,,c.img,if=virtio".
Proof. vm_compute. reflexivity. Qed.

Example qemu_drive_param_all_fields :
  fst (qemu_drive_param sample_help_run sample_handle
         (mkDrive "/d0" (Some "ide") (Some "raw") (Some "lbl") true true) 0)
  = "file=/d0,snapshot=on,cache=none,format=raw,serial=lbl,if=ide".
Proof. vm_compute. reflexivity. Qed.

(** Halving the commas of an escaped path gives the path back. *)
Lemma unescape_escape_commas p : unescape_commas (escape_commas p) = p.
Proof.
  induction p as [|c p IH]; [reflexivity|].
  cbn [escape_commas].
  destruct (Ascii.eqb c COMMA) eqn:E.
  - apply Ascii.eqb_eq in E. subst c.
    cbn [unescape_commas]. rewrite Ascii.eqb_refl. cbn [andb]. rewrite IH. reflexivity.
  - destruct p as [|c' p'].
    + reflexivity.
    + cbn [escape_commas] in *.
      destruct (Ascii.eqb c' COMMA) eqn:E'.
      * cbn [unescape_commas] in *. rewrite E. cbn [andb].
        rewrite Ascii.eqb_refl in *. cbn [andb] in *. rewrite IH. reflexivity.
      * remember (escape_commas p') as q.
        cbn [unescape_commas]. rewrite E. cbn [andb].
        f_equal. exact IH.
Qed.

(** ** The appliance device *)

Lemma fold_left_count {A} (p : A -> bool) (l : list A) (n : nat) :
  fold_left (fun index x => if p x then S index else index) l n
  = (n + List.length (filter p l))%nat.
Proof.
  revert n; induction l as [|x l IH]; intros n; simpl; [lia|].
  rewrite IH. destruct (p x); simpl; lia.
Qed.

(** C4: the index is the number of drives with no iface or iface "ide"
    under virtio-scsi, with no iface or an iface other than "virtio"
    otherwise, and the device is /dev/sd or /dev/vd followed by the
    letters of that index. *)
Theorem make_appliance_dev_path (g : guestfs_h) (virtio_scsi : Z) :
  make_appliance_dev g virtio_scsi =
  if virtio_scsi =? 0
  then "/dev/vd" ++ drive_name (List.length (filter unset_or_not_virtio (drives g)))
  else "/dev/sd" ++ drive_name (List.length (filter unset_or_ide (drives g))).
Proof.
  unfold make_appliance_dev.
  rewrite (fold_left_count (counts_for_appliance virtio_scsi)). simpl Nat.add.
  unfold counts_for_appliance.
  destruct (virtio_scsi =? 0); reflexivity.
Qed.

(** Three drives, ide, default and virtio, under virtio-scsi and
    virtio-blk. *)
Example make_appliance_dev_mixed :
  let g := mkHandle CONFIG
             [mkDrive "/d0" (Some "ide") None None false false;
              mkDrive "/d1" None None None false false;
              mkDrive "/d2" (Some "virtio") None None false false]
             "qemu" false false true false 1 500 [] (-1) (-1) (-1)
             timeval_zero fresh_app in
  make_appliance_dev g 1 = "/dev/sdc" /\ make_appliance_dev g 0 = "/dev/vdc".
Proof. vm_compute. split; reflexivity. Qed.

Lemma drive_name_step index :
  drive_name index =
  if (index <? 26)%nat then letter index
  else drive_name (index / 26 - 1) ++ letter (index mod 26).
Proof.
  rewrite drive_name_equation_1 at 1.
  destruct (le_lt_dec 26 index) as [H|H]; simpl.
  - destruct (Nat.ltb_spec index 26); [lia|]. reflexivity.
  - destruct (Nat.ltb_spec index 26); [|lia]. reflexivity.
Qed.

Example drive_name_samples :
  drive_name 0 = "a" /\ drive_name 1 = "b" /\ drive_name 25 = "z"
  /\ drive_name 26 = "aa" /\ drive_name 27 = "ab" /\ drive_name 701 = "zz"
  /\ drive_name 702 = "aaa".
Proof. vm_compute. repeat split; reflexivity. Qed.

(** ** The capability probe *)

Lemma test_qemu_result run g :
  fst (test_qemu run g) = 0 \/ fst (test_qemu run g) = -1.
Proof.
  unfold test_qemu.
  destruct ((cmd_r run =? -1) || negb (WIFEXITED (cmd_r run))
            || negb (WEXITSTATUS (cmd_r run) =? 0))%bool; simpl; auto.
Qed.

(** What a successful probe leaves in the handle. *)
Lemma test_qemu_ok run g g' :
  test_qemu run g = (0, g') ->
  (exists out, qemu_help (app g') = Some out)
  /\ qemu_version (app g') = Some ""
  /\ qemu_devices (app g') = Some ""
  /\ qemu_version_major (app g') = 0
  /\ qemu_version_minor (app g') = 0
  /\ virtio_scsi (app g') = virtio_scsi (app g).
Proof.
  unfold test_qemu.
  destruct ((cmd_r run =? -1) || negb (WIFEXITED (cmd_r run))
            || negb (WEXITSTATUS (cmd_r run) =? 0))%bool eqn:E;
    [discriminate|].
  intros [= <-].
  destruct run as [out|status out]; simpl in E; [discriminate|].
  simpl. repeat split; eauto.
Qed.

(** What a failed probe leaves in the handle. *)
Lemma test_qemu_failed run g r g' :
  test_qemu run g = (r, g') -> r <> 0 ->
  r = -1
  /\ qemu_version (app g') = None
  /\ qemu_devices (app g') = None
  /\ qemu_version_major (app g') = qemu_version_major (app g)
  /\ qemu_version_minor (app g') = qemu_version_minor (app g)
  /\ virtio_scsi (app g') = virtio_scsi (app g).
Proof.
  unfold test_qemu.
  destruct ((cmd_r run =? -1) || negb (WIFEXITED (cmd_r run))
            || negb (WEXITSTATUS (cmd_r run) =? 0))%bool eqn:E.
  - intros [= <- <-] _. destruct (cmd_stdout run); simpl; auto 10.
  - intros [= <- <-] H. congruence.
Qed.

Lemma test_qemu_cases run g :
  (exists g', test_qemu run g = (0, g'))
  \/ (exists g', test_qemu run g = (-1, g')).
Proof.
  destruct (test_qemu run g) as [r g'] eqn:E.
  pose proof (test_qemu_result run g) as H. rewrite E in H. simpl in H.
  destruct H; subst; eauto.
Qed.

Lemma surjective_pair {A B} (p : A * B) : p = (fst p, snd p).
Proof. destruct p; reflexivity. Qed.

(** With the help text cached and the bus decided, nothing is run and
    nothing changes. *)
Lemma virtio_scsi_decided_cached run g :
  qemu_help (app g) <> None -> virtio_scsi (app g) <> 0 ->
  qemu_supports_virtio_scsi run g = (b2z (virtio_scsi (app g) =? 1), g).
Proof.
  intros Hh Hv. unfold qemu_supports_virtio_scsi.
  destruct (qemu_help (app g)); [|congruence].
  apply Z.eqb_neq in Hv. rewrite Hv. reflexivity.
Qed.

(** Once decided against virtio-scsi, the answer is virtio-blk whatever
    the probe does. *)
Lemma virtio_scsi_decided_blk run g :
  virtio_scsi (app g) <> 0 -> virtio_scsi (app g) <> 1 ->
  fst (qemu_supports_virtio_scsi run g) = 0
  /\ virtio_scsi (app (snd (qemu_supports_virtio_scsi run g))) = virtio_scsi (app g).
Proof.
  intros H0 H1. unfold qemu_supports_virtio_scsi.
  destruct (qemu_help (app g)) as [help|].
  - apply Z.eqb_neq in H0, H1. rewrite H0. simpl. rewrite H1. auto.
  - destruct (test_qemu run g) as [r g1] eqn:E.
    destruct (Z.eqb_spec r (-1)) as [->|Hr]; simpl.
    + split; [reflexivity|].
      apply test_qemu_failed in E; [|lia]. tauto.
    + assert (r = 0).
      { pose proof (test_qemu_result run g) as Hres. rewrite E in Hres.
        simpl in Hres. lia. }
      subst r. apply test_qemu_ok in E.
      destruct E as (_ & _ & _ & _ & _ & Hv). rewrite Hv.
      apply Z.eqb_neq in H0, H1. rewrite H0. simpl. rewrite Hv, H1. auto.
Qed.

(** The device query never changes the decision already recorded. *)
Lemma qemu_supports_device_virtio_scsi run g name :
  virtio_scsi (app (snd (qemu_supports_device run g name))) = virtio_scsi (app g).
Proof.
  unfold qemu_supports_device.
  destruct (qemu_devices (app g)) as [d|] eqn:Hd.
  - simpl. rewrite Hd. reflexivity.
  - destruct (test_qemu run g) as [r g1] eqn:E.
    destruct (Z.eqb_spec r (-1)) as [->|Hr]; simpl.
    + apply test_qemu_failed in E; [|lia]. tauto.
    + assert (r = 0).
      { pose proof (test_qemu_result run g) as Hres. rewrite E in Hres.
        simpl in Hres. lia. }
      subst r. apply test_qemu_ok in E.
      destruct E as (_ & _ & Hdev & _ & _ & Hv). rewrite Hdev. simpl. exact Hv.
Qed.

(** A device query that does not fail leaves the help text in place. *)
Lemma qemu_supports_device_help run g name :
  qemu_help (app g) <> None ->
  0 <= fst (qemu_supports_device run g name) ->
  qemu_help (app (snd (qemu_supports_device run g name))) <> None.
Proof.
  intros Hh. unfold qemu_supports_device.
  destruct (qemu_devices (app g)) as [d|] eqn:Hd.
  - simpl. rewrite Hd. simpl. auto.
  - destruct (test_qemu run g) as [r g1] eqn:E.
    destruct (Z.eqb_spec r (-1)) as [->|Hr]; simpl; [lia|].
    assert (r = 0).
    { pose proof (test_qemu_result run g) as Hres. rewrite E in Hres.
      simpl in Hres. lia. }
    subst r. apply test_qemu_ok in E.
    destruct E as ((out & Hout) & _ & Hdev & _). rewrite Hdev. simpl.
    intros _. congruence.
Qed.

(** The decision taken by a call that finds the help text cached and
    the bus untested. *)
Lemma virtio_scsi_decide run g :
  qemu_help (app g) <> None -> virtio_scsi (app g) = 0 ->
  qemu_supports_virtio_scsi run g =
  if (qemu_version_major (app g) =? 1) && (qemu_version_minor (app g) <? 2)
  then (0, upd_app (set_virtio_scsi 2) g)
  else
    let d := fst (qemu_supports_device run g "virtio-scsi-pci") in
    let g1 := snd (qemu_supports_device run g "virtio-scsi-pci") in
    if 0 <? d then (1, upd_app (set_virtio_scsi 1) g1)
    else if d =? 0 then (0, upd_app (set_virtio_scsi 2) g1)
    else (0, upd_app (set_virtio_scsi 3) g1).
Proof.
  intros Hh Hv. unfold qemu_supports_virtio_scsi.
  destruct (qemu_help (app g)); [|congruence].
  simpl. rewrite Hv. simpl. unfold old_or_broken_virtio_scsi.
  destruct ((qemu_version_major (app g) =? 1) && (qemu_version_minor (app g) <? 2))%bool;
    simpl; [reflexivity|].
  destruct (qemu_supports_device run g "virtio-scsi-pci") as [d g1]. simpl.
  rewrite Z.gtb_ltb.
  destruct (0 <? d); [reflexivity|].
  destruct (d =? 0); reflexivity.
Qed.

(** Once the bus is decided, every later call answers the same. *)
Lemma choose_again_sticky runs g :
  virtio_scsi (app g) <> 0 ->
  (virtio_scsi (app g) = 1 -> qemu_help (app g) <> None) ->
  Forall (eq (b2z (virtio_scsi (app g) =? 1))) (choose_again runs g).
Proof.
  revert g; induction runs as [|run runs IH]; intros g H0 Hinv; simpl; [constructor|].
  destruct (Z.eq_dec (virtio_scsi (app g)) 1) as [H1|H1].
  - rewrite (virtio_scsi_decided_cached run g (Hinv H1) H0).
    constructor; [reflexivity|]. apply IH; assumption.
  - destruct (virtio_scsi_decided_blk run g H0 H1) as [Hr Hs].
    rewrite (surjective_pair (qemu_supports_virtio_scsi run g)).
    apply Z.eqb_neq in H1. rewrite H1. simpl.
    constructor; [symmetry; exact Hr|].
    apply Z.eqb_neq in H1.
    replace 0 with (b2z (virtio_scsi (app (snd (qemu_supports_virtio_scsi run g))) =? 1)).
    + apply IH; rewrite Hs; [assumption|congruence].
    + rewrite Hs. apply Z.eqb_neq in H1. rewrite H1. reflexivity.
Qed.

(** The policy, for a call that finds the help text cached. *)
Lemma virtio_scsi_policy_cached (run : cmd_outcome) (g : guestfs_h) :
  qemu_help (app g) <> None ->
  let r := fst (qemu_supports_virtio_scsi run g) in
  let g' := snd (qemu_supports_virtio_scsi run g) in
  let d := fst (qemu_supports_device run g "virtio-scsi-pci") in
  let broken := qemu_version_major (app g) = 1 /\ qemu_version_minor (app g) < 2 in
  r = b2z (virtio_scsi (app g') =? 1)
  /\ (virtio_scsi (app g) <> 0 -> g' = g)
  /\ (virtio_scsi (app g) = 0 ->
      (broken -> virtio_scsi (app g') = 2)
      /\ (~ broken ->
          (0 < d <-> virtio_scsi (app g') = 1)
          /\ (d = 0 -> virtio_scsi (app g') = 2)
          /\ (d < 0 -> virtio_scsi (app g') = 3)))
  /\ (forall runs, Forall (eq r) (choose_again runs g')).
Proof.
  intros Hh r g' d broken.
  destruct (Z.eq_dec (virtio_scsi (app g)) 0) as [H0|H0].
  - (* untested: decided by this call *)
    pose proof (virtio_scsi_decide run g Hh H0) as Hdec.
    pose proof (qemu_supports_device_help run g "virtio-scsi-pci" Hh) as Hdh.
    fold d in Hdec, Hdh.
    set (g1 := snd (qemu_supports_device run g "virtio-scsi-pci")) in *.
    assert (Hb : ((qemu_version_major (app g) =? 1)
                  && (qemu_version_minor (app g) <? 2))%bool = true <-> broken).
    { unfold broken. rewrite andb_true_iff, Z.eqb_eq, Z.ltb_lt. tauto. }
    assert (Hcases :
      exists v, qemu_supports_virtio_scsi run g
                = (b2z (v =? 1), upd_app (set_virtio_scsi v)
                                   (if (qemu_version_major (app g) =? 1)
                                       && (qemu_version_minor (app g) <? 2)
                                    then g else g1))
                /\ v <> 0
                /\ (v = 1 -> qemu_help (app g1) <> None)
                /\ (broken -> v = 2)
                /\ (~ broken -> (0 < d <-> v = 1) /\ (d = 0 -> v = 2) /\ (d < 0 -> v = 3))).
    { destruct ((qemu_version_major (app g) =? 1)
                && (qemu_version_minor (app g) <? 2))%bool eqn:Eb.
      - exists 2. split; [exact Hdec|]. split; [lia|]. split; [lia|].
        split; [reflexivity|]. intros Hnb. exfalso. apply Hnb, Hb. reflexivity.
      - assert (Hnb : ~ broken) by (rewrite <- Hb; congruence).
        cbv zeta in Hdec.
        destruct (0 <? d) eqn:Hd;
          [apply Z.ltb_lt in Hd
          |apply Z.ltb_ge in Hd; destruct (d =? 0) eqn:Hd0;
           [apply Z.eqb_eq in Hd0|apply Z.eqb_neq in Hd0]].
        + exists 1. split; [exact Hdec|]. split; [lia|].
          split; [intros _; apply Hdh; lia|]. split; [tauto|].
          intros _. split; [tauto|]. split; lia.
        + exists 2. split; [exact Hdec|]. split; [lia|]. split; [lia|].
          split; [tauto|]. intros _. split; [lia|]. split; lia.
        + exists 3. split; [exact Hdec|]. split; [lia|]. split; [lia|].
          split; [tauto|]. intros _. split; [lia|]. split; lia. }
    destruct Hcases as (v & Hcall & Hv0 & Hvh & Hvb & Hvn).
    set (g2 := if ((qemu_version_major (app g) =? 1)
                   && (qemu_version_minor (app g) <? 2))%bool then g else g1) in *.
    assert (Hr : r = b2z (v =? 1)) by (unfold r; rewrite Hcall; reflexivity).
    assert (Hg : g' = upd_app (set_virtio_scsi v) g2)
      by (unfold g'; rewrite Hcall; reflexivity).
    assert (Hstate : virtio_scsi (app g') = v) by (rewrite Hg; reflexivity).
    split; [rewrite Hstate; exact Hr|].
    split; [congruence|].
    split.
    + intros _. rewrite Hstate. split; [exact Hvb|exact Hvn].
    + intros runs. rewrite Hr, <- Hstate.
      apply choose_again_sticky; [congruence|].
      intros Hv1. rewrite Hstate in Hv1. rewrite Hg. simpl.
      unfold g2.
      destruct ((qemu_version_major (app g) =? 1)
                && (qemu_version_minor (app g) <? 2))%bool; auto.
  - (* decided before *)
    pose proof (virtio_scsi_decided_cached run g Hh H0) as Hdec.
    assert (Hr : r = b2z (virtio_scsi (app g) =? 1)) by (unfold r; rewrite Hdec; reflexivity).
    assert (Hg : g' = g) by (unfold g'; rewrite Hdec; reflexivity).
    rewrite Hr, Hg.
    split; [reflexivity|]. split; [reflexivity|]. split; [congruence|].
    intros runs. apply choose_again_sticky; [assumption|intros _; assumption].
Qed.

Lemma first_probe_failed run g :
  fst (first_probe run g) = -1 ->
  qemu_supports_virtio_scsi run g = (0, snd (first_probe run g))
  /\ virtio_scsi (app (snd (first_probe run g))) = virtio_scsi (app g).
Proof.
  unfold first_probe, qemu_supports_virtio_scsi.
  destruct (qemu_help (app g)); [simpl; lia|].
  destruct (test_qemu run g) as [r g0] eqn:E. simpl. intros ->. simpl.
  split; [reflexivity|]. apply test_qemu_failed in E; [|lia]. tauto.
Qed.

Lemma first_probe_ok run g :
  fst (first_probe run g) <> -1 ->
  qemu_help (app (snd (first_probe run g))) <> None
  /\ virtio_scsi (app (snd (first_probe run g))) = virtio_scsi (app g)
  /\ qemu_supports_virtio_scsi run g
     = qemu_supports_virtio_scsi run (snd (first_probe run g)).
Proof.
  unfold first_probe, qemu_supports_virtio_scsi.
  destruct (qemu_help (app g)) as [help|] eqn:Hh.
  - simpl. rewrite Hh. intros _. repeat split. congruence.
  - destruct (test_qemu_cases run g) as [[g0 E]|[g0 E]]; rewrite E; simpl; [|lia].
    intros _. pose proof (test_qemu_ok _ _ _ E) as ((out & Hout) & _ & _ & _ & _ & Hv).
    rewrite Hout. simpl. repeat split; [congruence|exact Hv].
Qed.

(** C5: when the probe the call may have to make first fails, the answer
    is virtio-blk and nothing is decided.  Otherwise the answer is
    virtio-scsi exactly in state 1 (SUPPORTED); a handle already decided
    is left as the probe left it; an untested one is decided 2
    (UNSUPPORTED) when the version is 1.x with x < 2, whatever the
    devices, and otherwise 1 iff the device query for virtio-scsi-pci is
    positive, 2 when it is zero, 3 (PROBE_FAILED) when it fails; and
    every later call repeats the answer. *)
Theorem qemu_supports_virtio_scsi_policy (run : cmd_outcome) (g : guestfs_h) :
  let g0 := snd (first_probe run g) in
  let r := fst (qemu_supports_virtio_scsi run g) in
  let g' := snd (qemu_supports_virtio_scsi run g) in
  let d := fst (qemu_supports_device run g0 "virtio-scsi-pci") in
  let broken := qemu_version_major (app g0) = 1 /\ qemu_version_minor (app g0) < 2 in
  (fst (first_probe run g) = -1 ->
   r = 0 /\ g' = g0 /\ virtio_scsi (app g') = virtio_scsi (app g))
  /\ (fst (first_probe run g) <> -1 ->
      r = b2z (virtio_scsi (app g') =? 1)
      /\ (virtio_scsi (app g) <> 0 -> g' = g0)
      /\ (virtio_scsi (app g) = 0 ->
          (broken -> virtio_scsi (app g') = 2)
          /\ (~ broken ->
              (0 < d <-> virtio_scsi (app g') = 1)
              /\ (d = 0 -> virtio_scsi (app g') = 2)
              /\ (d < 0 -> virtio_scsi (app g') = 3)))
      /\ (forall runs, Forall (eq r) (choose_again runs g'))).
Proof.
  intros g0 r g' d broken. split.
  - intros Hf. destruct (first_probe_failed run g Hf) as [Hcall Hv].
    unfold r, g'. rewrite Hcall. simpl. auto.
  - intros Hok. destruct (first_probe_ok run g Hok) as (Hh & Hv & Hcall).
    fold g0 in Hh, Hv, Hcall.
    pose proof (virtio_scsi_policy_cached run g0 Hh) as H. cbv zeta in H.
    unfold r, g'. rewrite Hcall. rewrite <- Hv. exact H.
Qed.

Lemma qemu_supports_virtio_scsi_policy_witness :
  virtio_scsi (app (snd (qemu_supports_virtio_scsi sample_help_run handle_qemu_1_1))) = 2
  /\ fst (qemu_supports_virtio_scsi (CmdError None) sample_handle) = 0.
Proof.
  split.
  - destruct (qemu_supports_virtio_scsi_policy sample_help_run handle_qemu_1_1)
      as (_ & H).
    destruct (H ltac:(discriminate)) as (_ & _ & Hdecide & _).
    destruct (Hdecide eq_refl) as [Hbroken _].
    apply Hbroken. split; reflexivity.
  - destruct (qemu_supports_virtio_scsi_policy (CmdError None) sample_handle)
      as (H & _).
    destruct (H eq_refl) as (Hr & _). exact Hr.
Defined.


(** ** What the probe can ever decide *)

Lemma never_scsi_test_qemu run g :
  never_scsi g -> never_scsi (snd (test_qemu run g)).
Proof.
  intros [Hv Hd]. unfold never_scsi.
  destruct (test_qemu_cases run g) as [[g' E]|[g' E]]; rewrite E; simpl.
  - apply test_qemu_ok in E. destruct E as (_ & _ & Hdev & _ & _ & Hvs).
    rewrite Hvs, Hdev. auto.
  - apply test_qemu_failed in E; [|lia].
    destruct E as (_ & _ & Hdev & _ & _ & Hvs). rewrite Hvs, Hdev. auto.
Qed.

Lemma never_scsi_qemu_supports run g opt :
  never_scsi g -> never_scsi (snd (qemu_supports run g opt)).
Proof.
  intros H. unfold qemu_supports.
  destruct (qemu_help (app g)) as [help|] eqn:Hh.
  - simpl. rewrite Hh. destruct opt; exact H.
  - pose proof (never_scsi_test_qemu run g H) as H'.
    destruct (test_qemu run g) as [r g1]. simpl in H'.
    destruct (r =? -1); [exact H'|].
    destruct opt, (qemu_help (app g1)); exact H'.
Qed.

Lemma never_scsi_qemu_supports_device run g name :
  never_scsi g -> never_scsi (snd (qemu_supports_device run g name)).
Proof.
  intros H. unfold qemu_supports_device.
  destruct (qemu_devices (app g)) as [d|] eqn:Hd.
  - simpl. rewrite Hd. exact H.
  - pose proof (never_scsi_test_qemu run g H) as H'.
    destruct (test_qemu run g) as [r g1]. simpl in H'.
    destruct (r =? -1); [exact H'|].
    destruct (qemu_devices (app g1)); exact H'.
Qed.

(** With an empty or absent device text no named device is found. *)
Lemma qemu_supports_device_none run g name :
  never_scsi g -> name <> "" ->
  fst (qemu_supports_device run g name) <= 0.
Proof.
  intros [_ Hd] Hn. unfold qemu_supports_device.
  destruct Hd as [Hd|Hd]; rewrite Hd.
  - destruct (test_qemu_cases run g) as [[g' E]|[g' E]]; rewrite E; simpl; [|lia].
    apply test_qemu_ok in E. destruct E as (_ & _ & Hdev & _). rewrite Hdev.
    destruct name; [congruence|simpl; lia].
  - simpl. rewrite Hd. destruct name; [congruence|simpl; lia].
Qed.

Lemma never_scsi_upd_virtio_scsi v g :
  never_scsi g -> v <> 1 -> never_scsi (upd_app (set_virtio_scsi v) g).
Proof. intros [_ Hd] Hv. split; simpl; assumption. Qed.

(** On such a handle the answer is always virtio-blk, and the handle
    stays such a handle. *)
Lemma never_scsi_qemu_supports_virtio_scsi run g :
  never_scsi g ->
  fst (qemu_supports_virtio_scsi run g) = 0
  /\ never_scsi (snd (qemu_supports_virtio_scsi run g)).
Proof.
  intros H. unfold qemu_supports_virtio_scsi.
  assert (Hdecide : forall g1, never_scsi g1 ->
    let g2 :=
      if virtio_scsi (app g1) =? 0 then
        if negb (old_or_broken_virtio_scsi g1 =? 0)
        then upd_app (set_virtio_scsi 2) g1
        else
          let (r, g) := qemu_supports_device run g1 "virtio-scsi-pci" in
          if r >? 0 then upd_app (set_virtio_scsi 1) g
          else if r =? 0 then upd_app (set_virtio_scsi 2) g
          else upd_app (set_virtio_scsi 3) g
      else g1 in
    never_scsi g2).
  { intros g1 H1. cbv zeta.
    destruct (virtio_scsi (app g1) =? 0); [|exact H1].
    destruct (negb (old_or_broken_virtio_scsi g1 =? 0)).
    - apply never_scsi_upd_virtio_scsi; [exact H1|lia].
    - pose proof (qemu_supports_device_none run g1 "virtio-scsi-pci" H1 ltac:(discriminate)) as Hle.
      pose proof (never_scsi_qemu_supports_device run g1 "virtio-scsi-pci" H1) as Hn.
      destruct (qemu_supports_device run g1 "virtio-scsi-pci") as [r g2].
      simpl in Hle, Hn.
      destruct (Z.gtb_spec r 0); [lia|].
      destruct (r =? 0); apply never_scsi_upd_virtio_scsi; auto; lia. }
  assert (Hanswer : forall g2, never_scsi g2 -> b2z (virtio_scsi (app g2) =? 1) = 0).
  { intros g2 [Hv _]. apply Z.eqb_neq in Hv. rewrite Hv. reflexivity. }
  destruct (qemu_help (app g)) as [help|].
  - simpl. split; [apply Hanswer|]; apply (Hdecide g H).
  - pose proof (never_scsi_test_qemu run g H) as H'.
    destruct (test_qemu run g) as [r g1]. simpl in H'.
    destruct (r =? -1); simpl; [auto|].
    split; [apply Hanswer|]; apply (Hdecide g1 H').
Qed.

Lemma never_scsi_qemu_drive_param run g drv index :
  never_scsi g -> never_scsi (snd (qemu_drive_param run g drv index)).
Proof.
  intros H. unfold qemu_drive_param.
  destruct (iface drv); [exact H|].
  pose proof (never_scsi_qemu_supports_virtio_scsi run g H) as [_ H'].
  destruct (qemu_supports_virtio_scsi run g) as [v g1]. simpl in H'.
  destruct (negb (v =? 0)); exact H'.
Qed.

Lemma never_scsi_max_disks run g :
  never_scsi g -> never_scsi (snd (max_disks_appliance run g)).
Proof.
  intros H. unfold max_disks_appliance.
  pose proof (never_scsi_qemu_supports_virtio_scsi run g H) as [_ H'].
  destruct (qemu_supports_virtio_scsi run g) as [v g1]. simpl in H'.
  destruct (negb (v =? 0)); exact H'.
Qed.

Lemma never_scsi_shutdown w g c :
  never_scsi g -> never_scsi (snd (fst (shutdown_appliance w g c))).
Proof.
  intros [Hv _]. unfold shutdown_appliance.
  destruct (recovery_proc g && (pid (app g) >? 0))%bool;
    [destruct w as [status|];
     [destruct (negb (WIFEXITED status) || negb (WEXITSTATUS status =? 0))%bool|]|];
    split; simpl; auto.
Qed.

Lemma never_scsi_same_probe_cache g g' :
  same_probe_cache g g' -> never_scsi g -> never_scsi g'.
Proof.
  intros (_ & _ & Hd & _ & _ & Hv) [H1 H2]. unfold never_scsi.
  rewrite Hd, Hv. auto.
Qed.

(** ** Handle invariants across the launch *)

Section Preserves.

Variable I : guestfs_h -> Prop.

(** [m] keeps [I] of the handle, however it ends. *)
Definition preserves {A} (m : L A) : Prop :=
  forall f x f', I (hdl f) -> m f = (x, f') -> I (hdl f').

Lemma preserves_ret {A} (a : A) : preserves (ret a).
Proof. intros f x f' H [= <- <-]. exact H. Qed.

Lemma preserves_leave {A} (x : exit) : preserves (@leave A x).
Proof. intros f y f' H [= <- <-]. exact H. Qed.

Lemma preserves_bind {A B} (m : L A) (k : A -> L B) :
  preserves m -> (forall a, preserves (k a)) -> preserves (bind m k).
Proof.
  intros Hm Hk f x f' H. unfold bind.
  destruct (m f) as [[e|a] f1] eqn:E.
  - intros [= <- <-]. eapply Hm; eassumption.
  - intros Hka. eapply Hk; [|exact Hka]. eapply Hm; eassumption.
Qed.

Lemma preserves_emit ev : preserves (emit ev).
Proof. intros f x f' H [= <- <-]. exact H. Qed.

Lemma preserves_get_g : preserves get_g.
Proof. intros f x f' H [= <- <-]. exact H. Qed.

Lemma preserves_get_frame : preserves get_frame.
Proof. intros f x f' H [= <- <-]. exact H. Qed.

Lemma preserves_set_wfd a b : preserves (set_wfd a b).
Proof. intros f x f' H [= <- <-]. exact H. Qed.

Lemma preserves_set_rfd a b : preserves (set_rfd a b).
Proof. intros f x f' H [= <- <-]. exact H. Qed.

Lemma preserves_modify_g u :
  (forall g, I g -> I (u g)) -> preserves (modify_g u).
Proof. intros Hu f x f' H [= <- <-]. apply Hu. exact H. Qed.

Lemma preserves_call_g {A} (fn : guestfs_h -> A * guestfs_h) :
  (forall g, I g -> I (snd (fn g))) -> preserves (call_g fn).
Proof. intros Hfn f x f' H [= <- <-]. apply Hfn. exact H. Qed.

Lemma preserves_when b m : preserves m -> preserves (when b m).
Proof. intros Hm. destruct b; [exact Hm|apply preserves_ret]. Qed.

Lemma preserves_if {A} (b : bool) (m1 m2 : L A) :
  preserves m1 -> preserves m2 -> preserves (if b then m1 else m2).
Proof. destruct b; auto. Qed.

Lemma preserves_accept_loop euid conns : preserves (accept_loop euid conns).
Proof.
  induction conns as [|c conns IH]; simpl.
  - apply preserves_leave.
  - destruct c as [|fd peer]; [apply preserves_leave|].
    apply preserves_bind; [apply preserves_emit|intros _].
    destruct (check_peer_euid peer) as [err|uid].
    + apply preserves_bind; [apply preserves_emit|intros _; apply preserves_leave].
    + apply preserves_if; [|apply preserves_ret].
      apply preserves_bind; [apply preserves_emit|intros _].
      apply preserves_bind; [apply preserves_emit|intros _]. exact IH.
Qed.

(** The writes of the launcher outside the probe cache. *)
Hypothesis I_state : forall v g, I g -> I (set_state v g).
Hypothesis I_sock : forall v g, I g -> I (set_sock v g).
Hypothesis I_fd0 : forall v g, I g -> I (set_fd0 v g).
Hypothesis I_fd1 : forall v g, I g -> I (set_fd1 v g).
Hypothesis I_launch_t : forall v g, I g -> I (set_launch_t v g).
Hypothesis I_pid : forall v g, I g -> I (upd_app (set_pid v) g).
Hypothesis I_recoverypid : forall v g, I g -> I (upd_app (set_recoverypid v) g).
Hypothesis I_qemu_supports :
  forall run g opt, I g -> I (snd (qemu_supports run g opt)).

Ltac preserve :=
  repeat first
    [ apply preserves_bind; [|intros ?]
    | apply preserves_ret
    | apply preserves_leave
    | apply preserves_emit
    | apply preserves_get_g
    | apply preserves_get_frame
    | apply preserves_set_wfd
    | apply preserves_set_rfd
    | apply preserves_accept_loop
    | apply preserves_when
    | apply preserves_call_g; intros; apply I_qemu_supports; assumption
    | apply preserves_modify_g; intros;
      first [ apply I_state | apply I_sock | apply I_fd0 | apply I_fd1
            | apply I_launch_t | apply I_pid | apply I_recoverypid ];
      assumption
    | match goal with
      | |- preserves (if ?b then _ else _) => destruct b
      | |- preserves (match ?x with _ => _ end) => destruct x
      end ].

Lemma preserves_launch_body e : preserves (launch_body e).
Proof. unfold launch_body. preserve. Qed.

Lemma preserves_cleanup1 : preserves cleanup1.
Proof. unfold cleanup1. preserve. Qed.

Lemma preserves_cleanup0 : preserves cleanup0.
Proof. unfold cleanup0. preserve. Qed.

Lemma launch_appliance_preserves e g :
  I g -> I (snd (fst (launch_appliance e g))).
Proof.
  intros Hg. unfold launch_appliance.
  destruct (launch_body e (mkFrame g 0 0 0 0 [])) as [[x|v] f] eqn:E.
  - assert (Hf : I (hdl f)) by (eapply (preserves_launch_body e); [|exact E]; exact Hg).
    destruct x as [| |v].
    + destruct (cleanup0 f) as [[x|v] f1] eqn:E0;
        assert (I (hdl f1)) by (eapply preserves_cleanup0; eassumption);
        [destruct x|]; assumption.
    + destruct ((bind cleanup1 (fun _ => cleanup0)) f) as [[x|v] f1] eqn:E1;
        assert (I (hdl f1))
          by (eapply (preserves_bind cleanup1 (fun _ => cleanup0));
              [apply preserves_cleanup1|intros _; apply preserves_cleanup0
              |exact Hf|exact E1]);
        [destruct x|]; assumption.
    + exact Hf.
  - eapply (preserves_launch_body e); [|exact E]; exact Hg.
Qed.

End Preserves.

Lemma never_scsi_launch e g :
  never_scsi g -> never_scsi (snd (fst (launch_appliance e g))).
Proof.
  apply (launch_appliance_preserves never_scsi);
    try (intros v g0 H; exact H).
  intros run g0 opt. apply never_scsi_qemu_supports.
Qed.

Lemma never_scsi_fresh g : fresh g -> never_scsi g.
Proof.
  intros (_ & _ & _ & _ & _ & Hd & _ & _ & Hv). split; [lia|auto].
Qed.

Lemma never_scsi_step g g' : backend_step g g' -> never_scsi g -> never_scsi g'.
Proof.
  intros Hstep H. destruct Hstep.
  - apply never_scsi_test_qemu; assumption.
  - apply never_scsi_qemu_supports; assumption.
  - apply never_scsi_qemu_supports_device; assumption.
  - apply never_scsi_qemu_supports_virtio_scsi; assumption.
  - apply never_scsi_qemu_drive_param; assumption.
  - apply never_scsi_max_disks; assumption.
  - apply never_scsi_launch; assumption.
  - apply never_scsi_shutdown; assumption.
  - eapply never_scsi_same_probe_cache; eassumption.
Qed.

Lemma reachable_never_scsi g : reachable g -> never_scsi g.
Proof.
  induction 1 as [g Hf|g g' _ IH Hstep].
  - apply never_scsi_fresh; assumption.
  - eapply never_scsi_step; eassumption.
Qed.

(** C9: a successful probe leaves the version text and the device text
    empty and the version 0.0; after it no non-empty device name is ever
    found; and on no handle reached from a fresh one does the bus choice
    come out as virtio-scsi. *)
Theorem probe_never_selects_virtio_scsi :
  (forall run g g',
     test_qemu run g = (0, g') ->
     qemu_version (app g') = Some ""
     /\ qemu_devices (app g') = Some ""
     /\ qemu_version_major (app g') = 0
     /\ qemu_version_minor (app g') = 0)
  /\ (forall run g g' run' name,
        test_qemu run g = (0, g') -> name <> "" ->
        qemu_supports_device run' g' name = (0, g'))
  /\ (forall g run,
        reachable g -> fst (qemu_supports_virtio_scsi run g) = 0).
Proof.
  split; [|split].
  - intros run g g' E. apply test_qemu_ok in E. tauto.
  - intros run g g' run' name E Hn. apply test_qemu_ok in E.
    destruct E as (_ & _ & Hd & _).
    unfold qemu_supports_device. rewrite Hd. simpl. rewrite Hd.
    destruct name; [congruence|reflexivity].
  - intros g run Hr.
    apply never_scsi_qemu_supports_virtio_scsi, reachable_never_scsi, Hr.
Qed.

Lemma sample_handle_fresh : fresh sample_handle.
Proof. repeat split. Qed.

Lemma probe_never_selects_virtio_scsi_witness :
  (qemu_version (app (snd (test_qemu sample_help_run sample_handle))) = Some ""
   /\ qemu_supports_device sample_help_run
        (snd (test_qemu sample_help_run sample_handle)) "virtio-scsi-pci"
      = (0, snd (test_qemu sample_help_run sample_handle)))
  /\ fst (qemu_supports_virtio_scsi sample_help_run sample_handle) = 0.
Proof.
  destruct probe_never_selects_virtio_scsi as (H1 & H2 & H3).
  split; [split|].
  - apply (H1 sample_help_run sample_handle _ eq_refl).
  - apply (H2 sample_help_run sample_handle _ sample_help_run "virtio-scsi-pci" eq_refl).
    discriminate.
  - apply H3. apply reach_fresh. exact sample_handle_fresh.
Defined.

(** C10: the maximum number of disks is 255 exactly when the bus choice
    is virtio-scsi, and 27 otherwise. *)
Theorem max_disks_appliance_by_bus (run : cmd_outcome) (g : guestfs_h) :
  (fst (max_disks_appliance run g) = 255
   <-> fst (qemu_supports_virtio_scsi run g) = 1)
  /\ (fst (max_disks_appliance run g) = 27
      <-> fst (qemu_supports_virtio_scsi run g) <> 1)
  /\ snd (max_disks_appliance run g) = snd (qemu_supports_virtio_scsi run g).
Proof.
  unfold max_disks_appliance.
  assert (Hb : fst (qemu_supports_virtio_scsi run g) = 0
               \/ fst (qemu_supports_virtio_scsi run g) = 1).
  { unfold qemu_supports_virtio_scsi.
    destruct (match qemu_help (app g) with
              | Some _ => (0, g)
              | None => test_qemu run g
              end) as [r g1].
    destruct (r =? -1); simpl; [auto|].
    match goal with |- context [b2z ?b] => destruct b end; simpl; auto. }
  destruct (qemu_supports_virtio_scsi run g) as [r g1]. simpl in *.
  destruct Hb; subst r; simpl; repeat split; intros; try lia; try discriminate.
Qed.

(** ** Launch and shutdown *)

Lemma Z_of_N_geb n : (Z.of_N n >=? 0) = true.
Proof. destruct n; reflexivity. Qed.

(** The events of the accept loop. *)
Definition accept_event (ev : event) : Prop :=
  match ev with
  | EvAccept _ | EvWarnUid _ | EvClose _ | EvError _ => True
  | _ => False
  end.

(** The accept loop touches neither the handle nor the pipe locals; it
    only adds events of its own, and it ends with a socket or at
    [cleanup1]. *)
Lemma accept_loop_frame euid conns f x f' :
  accept_loop euid conns f = (x, f') ->
  exists evs,
    f' = mkFrame (hdl f) (wfd0 f) (wfd1 f) (rfd0 f) (rfd1 f) (trace f ++ evs)
    /\ Forall accept_event evs
    /\ (x = inl GotoCleanup1 \/ exists r, x = inr r /\ (r >=? 0) = true).
Proof.
  revert f; induction conns as [|c conns IH]; intros f; simpl.
  - intros [= <- <-]. exists []. rewrite app_nil_r. destruct f; simpl; auto.
  - destruct c as [|fd peer].
    + intros [= <- <-]. exists []. rewrite app_nil_r. destruct f; simpl; auto.
    + unfold bind, emit, leave, ret. simpl.
      destruct (check_peer_euid peer) as [err|uid]; simpl.
      * intros [= <- <-].
        exists [EvAccept (Z.of_N fd); EvError "check_peer_euid"].
        rewrite <- app_assoc. simpl. repeat split; auto.
        repeat constructor.
      * destruct (negb (uid =? euid)); simpl.
        -- intros H. apply IH in H. simpl in H.
           destruct H as (evs & -> & Hevs & Hx).
           exists (EvAccept (Z.of_N fd) :: EvWarnUid uid :: EvClose (Z.of_N fd) :: evs).
           repeat rewrite <- app_assoc. simpl. repeat split; auto.
           repeat constructor. exact Hevs.
        -- intros [= <- <-]. exists [EvAccept (Z.of_N fd)].
           repeat split; [repeat constructor|].
           right. exists (Z.of_N fd). split; [reflexivity|apply Z_of_N_geb].
Qed.

Lemma accept_event_in evs ev :
  Forall accept_event evs -> In ev evs -> accept_event ev.
Proof. intros H Hin. rewrite Forall_forall in H. auto. Qed.

(** The probe leaves the rest of the handle alone. *)
Lemma test_qemu_other_fields run g :
  let g1 := snd (test_qemu run g) in
  pid (app g1) = pid (app g) /\ recoverypid (app g1) = recoverypid (app g)
  /\ fd0 g1 = fd0 g /\ fd1 g1 = fd1 g /\ launch_t g1 = launch_t g
  /\ sock g1 = sock g /\ g_state g1 = g_state g.
Proof.
  unfold test_qemu.
  destruct ((cmd_r run =? -1) || negb (WIFEXITED (cmd_r run))
            || negb (WEXITSTATUS (cmd_r run) =? 0))%bool;
    destruct (cmd_stdout run); simpl; repeat split;
    unfold parse_qemu_version; simpl; reflexivity.
Qed.

Lemma qemu_supports_other_fields run g opt :
  let g1 := snd (qemu_supports run g opt) in
  pid (app g1) = pid (app g) /\ recoverypid (app g1) = recoverypid (app g)
  /\ fd0 g1 = fd0 g /\ fd1 g1 = fd1 g /\ launch_t g1 = launch_t g
  /\ sock g1 = sock g /\ g_state g1 = g_state g.
Proof.
  unfold qemu_supports.
  destruct (qemu_help (app g)) as [help|] eqn:Hh.
  - simpl. rewrite Hh. destruct opt; simpl; repeat split.
  - pose proof (test_qemu_other_fields run g) as H.
    destruct (test_qemu run g) as [r g1]. simpl in H.
    destruct (r =? -1); [exact H|].
    destruct opt, (qemu_help (app g1)); exact H.
Qed.

(** Case analysis on what a trace contains. *)
Ltac split_in :=
  repeat match goal with
  | H : False |- _ => destruct H
  | H : _ \/ _ |- _ => destruct H
  | H : In _ [] |- _ => destruct H
  | H : In _ (_ :: _) |- _ => destruct H
  | H : In _ (_ ++ _) |- _ => apply in_app_or in H
  | H : In ?ev ?evs, Hf : Forall accept_event ?evs |- _ =>
      apply (accept_event_in _ _ Hf) in H; cbn in H
  | H : @eq event _ _ |- _ => first [discriminate H | injection H as H; subst]
  end.

(** Running the launch monad up to the next test that is not decided. *)
Ltac mrun :=
  cbv [bind ret leave emit get_g modify_g call_g set_wfd set_rfd get_frame when];
  cbn -[accept_loop qemu_supports];
  repeat (progress (rewrite ?Z_of_N_geb;
                    repeat match goal with
                    | H : (?r >=? 0) = true |- context [?r >=? 0] => rewrite H
                    | H : direct ?g = _ |- context [direct ?g] => rewrite H
                    end);
          cbn -[accept_loop qemu_supports]).

Ltac show_in :=
  cbn; rewrite ?in_app_iff; cbn; tauto.

(** Leaves of the case analysis of [launch_appliance]: a failure before
    the socket exists, between the socket and the fork, after the fork;
    and the part of the function from the accept loop on. *)
Ltac early :=
  mrun;
  repeat match goal with
  | |- context [if ?b then _ else _] => destruct b; mrun
  end;
  (match goal with H : forall gx trx, ~ (exists s, In (EvSocket s) trx) -> _ |- _ =>
     apply H end;
   intros [x H]; split_in).

Ltac mid :=
  mrun;
  (match goal with H : forall gx trx, _ -> cleaned_up_before_fork _ _ _ -> _ |- _ =>
     apply H end;
   [ intros [x H]; split_in
   | unfold cleaned_up_before_fork; cbn;
     repeat split; try assumption; try reflexivity;
     intros; split_in; show_in ]).

Ltac late :=
  mrun;
  repeat match goal with
  | |- context [if ?b then _ else _] => destruct b; mrun
  end;
  (match goal with H : forall gx trx, cleaned_up_after_fork _ _ -> _ |- _ =>
     apply H end;
   [ unfold cleaned_up_after_fork; cbn;
     repeat split; try reflexivity; intros; split_in; show_in
   | eexists; show_in ]).

Ltac tail :=
  match goal with
  | |- context [accept_loop ?u ?c ?f] =>
      let Ea := fresh "Ea" in
      let evs := fresh "evs" in
      let Hevs := fresh "Hevs" in
      let r := fresh "r" in
      let Hr := fresh "Hr" in
      let x := fresh "x" in
      let f' := fresh "f'" in
      destruct (accept_loop u c f) as [x f'] eqn:Ea;
      apply accept_loop_frame in Ea;
      destruct Ea as (evs & -> & Hevs & [-> | (r & -> & Hr)])
  end;
  [ late | ];
  mrun;
  match goal with |- context [if ?b then _ else _] => destruct b end; [|late];
  mrun;
  match goal with |- context [if ?b then _ else _] => destruct b end; [|late];
  mrun;
  match goal with |- context [if ?b then _ else _] => destruct b end; [|late];
  mrun;
  match goal with |- context [if ?b then _ else _] => destruct b end; [late|];
  mrun;
  match goal with |- context [if ?b then _ else _] => destruct b end; [late|];
  mrun;
  repeat match goal with |- context [if ?b then _ else _] => destruct b; mrun end;
  intros H; discriminate H.

(** C7, as the code has it: a launch that fails once a child was forked
    returns with the whole epilogue done (children killed with signal 9
    and waited for, process identifiers 0, stdio descriptors and socket
    -1, listening socket and pipe ends closed, launch time zeroed,
    state CONFIG); a launch that fails between the creation of the
    socket and the fork returns with the socket closed and the state
    CONFIG, and leaves process identifiers, stdio descriptors and launch
    time as they were. *)
Theorem launch_failure_cleanup (e : launch_env) (g g' : guestfs_h) (tr : list event) :
  launch_appliance e g = (-1, g', tr) ->
  ((exists child, In (EvFork child) tr) -> cleaned_up_after_fork g' tr)
  /\ ((exists s, In (EvSocket s) tr) -> ~ (exists child, In (EvFork child) tr) ->
      cleaned_up_before_fork g g' tr).
Proof.
  unfold launch_appliance, launch_body, cleanup1, cleanup0.
  destruct e as [build run socket_r bind_r listen_r getsockname_r fcntl_sock_r
                 pipe_w pipe_r fork_r fork_recovery fcntl_w fcntl_r conns euid
                 close_sock_r fcntl_data_r recv_r].
  cbn [e_build_appliance e_qemu_run e_socket e_bind e_listen e_getsockname
       e_fcntl_sock e_pipe_w e_pipe_r e_fork e_fork_recovery e_fcntl_w e_fcntl_r
       e_connections e_geteuid e_close_sock e_fcntl_data e_recv].
  pose proof (qemu_supports_other_fields run g None) as Hq. cbv zeta in Hq.
  destruct Hq as (Hpid & Hrpid & Hfd0 & Hfd1 & Hlt & Hsock & Hstate).
  (* the leaves before the socket: no socket event, no fork event *)
  assert (Hearly : forall gx trx,
            ~ (exists s, In (EvSocket s) trx) -> ~ (exists c, In (EvFork c) trx) ->
            (-1, gx, trx) = (-1, g', tr) ->
            ((exists child, In (EvFork child) tr) -> cleaned_up_after_fork g' tr)
            /\ ((exists s, In (EvSocket s) tr) ->
                ~ (exists child, In (EvFork child) tr) ->
                cleaned_up_before_fork g g' tr)).
  { intros gx trx Hs Hf [= <- <-]. split; intros; exfalso; auto. }
  (* the leaves between the socket and the fork *)
  assert (Hmid : forall gx trx,
            ~ (exists c, In (EvFork c) trx) ->
            cleaned_up_before_fork g gx trx ->
            (-1, gx, trx) = (-1, g', tr) ->
            ((exists child, In (EvFork child) tr) -> cleaned_up_after_fork g' tr)
            /\ ((exists s, In (EvSocket s) tr) ->
                ~ (exists child, In (EvFork child) tr) ->
                cleaned_up_before_fork g g' tr)).
  { intros gx trx Hf Hc [= <- <-]. split; intros; [exfalso|]; auto. }
  (* the leaves after the fork *)
  assert (Hlate : forall gx trx,
            cleaned_up_after_fork gx trx ->
            (exists c, In (EvFork c) trx) ->
            (-1, gx, trx) = (-1, g', tr) ->
            ((exists child, In (EvFork child) tr) -> cleaned_up_after_fork g' tr)
            /\ ((exists s, In (EvSocket s) tr) ->
                ~ (exists child, In (EvFork child) tr) ->
                cleaned_up_before_fork g g' tr)).
  { intros gx trx Hc Hf [= <- <-]. split; intros; [|exfalso]; auto. }
  mrun.
  destruct (drives g) as [|drv0 drvs] eqn:Hdrives.
  { unfold nr_drives. rewrite Hdrives. early. }
  unfold nr_drives. rewrite Hdrives. mrun.
  destruct build as [[[kernel initrd] appliance]|]; [|early].
  mrun.
  set (g1 := snd (qemu_supports run g None)) in *.
  destruct (fst (qemu_supports run g None) =? -1); [early|].
  mrun.
  destruct socket_r as [fd|]; [|early].
  destruct bind_r; [|mid].
  destruct listen_r; [|mid].
  destruct getsockname_r as [port|]; [|mid].
  destruct fcntl_sock_r; [|mid].
  mrun.
  destruct (direct g1) eqn:Hdirect; mrun.
  - (* direct mode: no pipes *)
    destruct fork_r as [vm|]; [|mid].
    mrun.
    destruct (recovery_proc g1); [destruct fork_recovery as [rp|]|]; mrun.
    + tail.
    + tail.
    + tail.
  - destruct pipe_w as [[a b]|]; [|mid].
    mrun.
    destruct pipe_r as [[c d]|]; [|mid].
    mrun.
    destruct fork_r as [vm|]; [|mid].
    mrun.
    destruct (recovery_proc g1); [destruct fork_recovery as [rp|]|]; mrun.
    + destruct (fcntl_w && fcntl_r)%bool; [|late]. mrun. tail.
    + destruct (fcntl_w && fcntl_r)%bool; [|late]. mrun. tail.
    + destruct (fcntl_w && fcntl_r)%bool; [|late]. mrun. tail.
Qed.

(** C6, as the code has it: with no drive added, [launch_appliance]
    reports the error and returns -1 at once, leaving the handle as it
    was and doing nothing else. *)
Theorem launch_without_drives (e : launch_env) (g : guestfs_h) :
  nr_drives g = O ->
  launch_appliance e g =
  (-1, g, [EvError "you must call guestfs_add_drive before guestfs_launch"]).
Proof.
  intros H. unfold launch_appliance, launch_body.
  cbv [bind ret leave emit get_g modify_g call_g set_wfd set_rfd get_frame when].
  cbn [hdl]. rewrite H. reflexivity.
Qed.

Lemma launch_without_drives_witness :
  launch_appliance env_ok no_drive_handle =
  (-1, no_drive_handle,
   [EvError "you must call guestfs_add_drive before guestfs_launch"]).
Proof. apply (launch_without_drives env_ok no_drive_handle). reflexivity. Defined.

(** The claim C6 fails for a handle that is not in CONFIG: with a drive
    added and the state READY the launch goes ahead, here to success,
    and the handle is changed. *)
Lemma launch_in_state_ready_goes_ahead :
  g_state handle_ready <> CONFIG
  /\ nr_drives handle_ready <> O
  /\ fst (fst (launch_appliance env_ok handle_ready)) = 0
  /\ sock (snd (fst (launch_appliance env_ok handle_ready))) = 8
  /\ sock handle_ready = -1.
Proof. vm_compute. repeat split; discriminate. Qed.

(** C8: after a shutdown the process identifiers are 0 and the help,
    version and device texts are gone; a second shutdown from there
    sends no signal, waits for nothing, leaves the handle as it is and
    returns 0. *)
Theorem shutdown_appliance_idempotent (w1 w2 : option Z) (g : guestfs_h) (c1 c2 : Z) :
  let g1 := snd (fst (shutdown_appliance w1 g c1)) in
  pid (app g1) = 0 /\ recoverypid (app g1) = 0
  /\ qemu_help (app g1) = None
  /\ qemu_version (app g1) = None
  /\ qemu_devices (app g1) = None
  /\ shutdown_appliance w2 g1 c2 = (0, g1, []).
Proof.
  unfold shutdown_appliance at 1.
  destruct (recovery_proc g && (pid (app g) >? 0))%bool;
    [destruct w1 as [status|];
     [destruct (negb (WIFEXITED status) || negb (WEXITSTATUS status =? 0))%bool|]|];
    cbn; repeat split; unfold shutdown_appliance; cbn;
    rewrite andb_false_r; reflexivity.
Qed.

Lemma launch_failure_cleanup_witness :
  cleaned_up_after_fork (snd (fst (launch_appliance env_recv_fails sample_handle)))
                        (snd (launch_appliance env_recv_fails sample_handle))
  /\ cleaned_up_before_fork sample_handle
       (snd (fst (launch_appliance env_bind_fails sample_handle)))
       (snd (launch_appliance env_bind_fails sample_handle)).
Proof.
  assert (E1 : launch_appliance env_recv_fails sample_handle =
               (-1, snd (fst (launch_appliance env_recv_fails sample_handle)),
                snd (launch_appliance env_recv_fails sample_handle)))
    by (vm_compute; reflexivity).
  assert (E2 : launch_appliance env_bind_fails sample_handle =
               (-1, snd (fst (launch_appliance env_bind_fails sample_handle)),
                snd (launch_appliance env_bind_fails sample_handle)))
    by (vm_compute; reflexivity).
  pose proof (launch_failure_cleanup env_recv_fails sample_handle _ _ E1) as [H1 _].
  pose proof (launch_failure_cleanup env_bind_fails sample_handle _ _ E2) as [_ H2].
  split.
  - refine (H1 (ex_intro _ 1000 _)). vm_compute. tauto.
  - refine (H2 (ex_intro _ 3 _) _).
    + vm_compute. tauto.
    + intros [c H]. vm_compute in H. intuition discriminate.
Defined.

(** The claim C7 fails between the socket and the fork: [bind] fails
    after the listening socket was created, the launch returns -1, and
    the launch time is not zeroed. *)
Lemma launch_bind_failure_keeps_launch_time :
  fst (fst (launch_appliance env_bind_fails sample_handle)) = -1
  /\ In (EvSocket 3) (snd (launch_appliance env_bind_fails sample_handle))
  /\ launch_t (snd (fst (launch_appliance env_bind_fails sample_handle)))
     = mkTimeval 1380000000 0
  /\ mkTimeval 1380000000 0 <> timeval_zero.
Proof. vm_compute. repeat split; try tauto; discriminate. Qed.

(** ** More on the splitter *)

(** The string left after a token is a suffix of the input. *)
Lemma skip_spaces_suffix s : exists k, skip_spaces s = CStr.advance k s.
Proof.
  induction s as [|a s [k IH]]; simpl.
  - exists O. reflexivity.
  - destruct (Ascii.eqb a CStr.SPACE).
    + exists (S k). exact IH.
    + exists O. reflexivity.
Qed.

Lemma advance_advance i j s : CStr.advance j (CStr.advance i s) = CStr.advance (i + j) s.
Proof.
  revert s; induction i as [|i IH]; intros s; simpl; [reflexivity|].
  destruct s as [|a s]; [destruct j; reflexivity|apply IH].
Qed.

Lemma char_at_advance i j s : CStr.char_at (CStr.advance i s) j = CStr.char_at s (i + j).
Proof.
  revert s; induction i as [|i IH]; intros s; simpl; [reflexivity|].
  destruct s as [|a s]; [destruct j; reflexivity|].
  unfold CStr.char_at in *. simpl. apply IH.
Qed.

(** What one turn of the loop does when it fails, and where it leaves
    [options] when it does not. *)
Lemma shell_token_cases options :
  match shell_token options with
  | inl e =>
      e = CannotParseQuoted options
      /\ exists q c rest,
           options = String q (String c rest)
           /\ (q = CStr.SQUOTE \/ q = CStr.DQUOTE)
           /\ c <> CStr.SPACE /\ c <> CStr.NUL
  | inr (_, rest) => exists k, rest = CStr.advance k options
  end.
Proof.
  unfold shell_token.
  assert (Hsuf : forall n, exists k,
             skip_spaces (CStr.advance n options) = CStr.advance k options).
  { intros n. destruct (skip_spaces_suffix (CStr.advance n options)) as [k Hk].
    exists (n + k)%nat. rewrite Hk. apply advance_advance. }
  destruct options as [|a s].
  - simpl. exists O. reflexivity.
  - change (CStr.char_at (String a s) 0) with a.
    destruct (Ascii.eqb a CStr.SQUOTE || Ascii.eqb a CStr.DQUOTE)%bool eqn:Hq.
    + rewrite CStr_strchr_head.
      assert (Hns : Ascii.eqb a CStr.SPACE = false).
      { apply orb_true_iff in Hq. destruct Hq as [Hq|Hq];
          apply Ascii.eqb_eq in Hq; subst a; reflexivity. }
      rewrite Hns.
      destruct s as [|c s].
      * change (CStr.char_at (String a "") 1) with CStr.NUL.
        rewrite Ascii.eqb_refl. cbv zeta. simpl negb. cbv iota. apply Hsuf.
      * change (CStr.char_at (String a (String c s)) 1) with c.
        destruct (Ascii.eqb c CStr.NUL) eqn:Hn; [apply Hsuf|].
        destruct (Ascii.eqb c CStr.SPACE) eqn:Hs; [apply Hsuf|].
        split; [reflexivity|].
        exists a, c, s. repeat split.
        -- apply orb_true_iff in Hq. destruct Hq as [Hq|Hq];
             apply Ascii.eqb_eq in Hq; auto.
        -- apply Ascii.eqb_neq. exact Hs.
        -- apply Ascii.eqb_neq. exact Hn.
    + rewrite Ascii.eqb_refl. simpl negb.
      destruct (CStr.strchr (String a s) CStr.SPACE) as [e|].
      * destruct (Ascii.eqb (CStr.char_at (String a s) e) CStr.NUL); apply Hsuf.
      * destruct (Ascii.eqb (CStr.char_at (String a s) (String.length (String a s)))
                            CStr.NUL); apply Hsuf.
Qed.

(** The only way the loop fails: at some offset the rest of the input
    opens with a quote that is followed by neither the end nor a space. *)
Lemma shell_loop_failure n : forall options acc e,
  (String.length options <= n)%nat ->
  shell_loop options acc = inl e ->
  exists k q c rest,
    CStr.advance k options = String q (String c rest)
    /\ e = CannotParseQuoted (String q (String c rest))
    /\ (q = CStr.SQUOTE \/ q = CStr.DQUOTE)
    /\ c <> CStr.SPACE /\ c <> CStr.NUL.
Proof.
  induction n as [|n IH]; intros options acc e Hlen; rewrite shell_loop_step.
  - destruct options; [discriminate|simpl in Hlen; lia].
  - destruct options as [|a s]; [discriminate|].
    pose proof (shell_token_cases (String a s)) as Hc.
    pose proof (shell_token_progress a s) as Hp.
    destruct (shell_token (String a s)) as [e'|[tok rest]].
    + intros [= <-]. destruct Hc as (-> & q & c & r & Ho & Hq & Hs & Hn).
      exists O, q, c, r. simpl CStr.advance. rewrite Ho. auto.
    + intros H. specialize (Hp tok rest eq_refl).
      apply IH in H; [|simpl in Hlen, Hp; lia].
      destruct Hc as [k0 ->].
      destruct H as (k & q & c & r & Ho & He & Hq & Hs & Hn).
      rewrite advance_advance in Ho.
      exists (k0 + k)%nat, q, c, r. auto.
Qed.

(** Tokens are only ever appended to the vector. *)
Lemma shell_loop_extends n : forall options acc v,
  (String.length options <= n)%nat ->
  shell_loop options acc = inr v -> exists toks, v = (acc ++ toks)%list.
Proof.
  induction n as [|n IH]; intros options acc v Hlen; rewrite shell_loop_step.
  - destruct options; [|simpl in Hlen; lia].
    intros [= <-]. exists []. rewrite app_nil_r. reflexivity.
  - destruct options as [|a s].
    + intros [= <-]. exists []. rewrite app_nil_r. reflexivity.
    + pose proof (shell_token_progress a s) as Hp.
      destruct (shell_token (String a s)) as [e'|[tok rest]]; [discriminate|].
      intros H. specialize (Hp tok rest eq_refl).
      apply IH in H; [|simpl in Hlen, Hp; lia].
      destruct H as [toks ->]. exists (tok :: toks).
      rewrite <- app_assoc. reflexivity.
Qed.

(** X1: unquoted words separated by runs of spaces are appended to the
    command line one by one, in order. *)
Theorem add_cmdline_shell_unquoted_words (g : guestfs_h)
    (ws : list (string * nat)) (last : string) :
  Forall (fun wn => word (fst wn) /\ strlen (fst wn) < 2 ^ 64) ws ->
  word last -> strlen last < 2 ^ 64 ->
  add_cmdline_shell_unquoted g (join_words ws last) =
  inr (upd_app (set_cmdline (cmdline (app g) ++ map fst ws ++ [last])%list) g).
Proof.
  intros Hws Hl Hn. unfold add_cmdline_shell_unquoted.
  rewrite (shell_loop_words ws last _ Hws Hl Hn). reflexivity.
Qed.

Lemma add_cmdline_shell_unquoted_words_witness :
  add_cmdline_shell_unquoted (alloc_cmdline sample_handle)
    "-machine   accel=kvm:tcg -nodefaults" =
  inr (upd_app (set_cmdline ["/usr/bin/qemu-kvm"; "-machine"; "accel=kvm:tcg";
                             "-nodefaults"])
               (alloc_cmdline sample_handle)).
Proof.
  apply (add_cmdline_shell_unquoted_words (alloc_cmdline sample_handle)
           [("-machine", 2%nat); ("accel=kvm:tcg", 0%nat)] "-nodefaults").
  - repeat constructor; simpl; try discriminate; unfold strlen; simpl; lia.
  - repeat constructor; simpl; discriminate.
  - unfold strlen; simpl; lia.
Defined.

(** X2: the splitter has one way to fail: somewhere in the input a token
    opens with a quote and the character after the quote is neither the
    end of the string nor a space; the message is "cannot parse quoted
    string" at that token.  The "unclosed quote" exit is never taken. *)
Theorem add_cmdline_shell_unquoted_failure (g : guestfs_h) (options : string)
    (e : shell_error) :
  add_cmdline_shell_unquoted g options = inl e ->
  exists k q c rest,
    CStr.advance k options = String q (String c rest)
    /\ e = CannotParseQuoted (String q (String c rest))
    /\ (q = CStr.SQUOTE \/ q = CStr.DQUOTE)
    /\ c <> CStr.SPACE /\ c <> CStr.NUL.
Proof.
  unfold add_cmdline_shell_unquoted.
  destruct (shell_loop options (cmdline (app g))) as [e'|v] eqn:E; [|discriminate].
  intros [= <-]. eapply shell_loop_failure; [apply Nat.le_refl|exact E].
Qed.

Lemma add_cmdline_shell_unquoted_failure_witness :
  exists k q c rest,
    CStr.advance k "-name 'my guest'" = String q (String c rest)
    /\ CannotParseQuoted "'my guest'" = CannotParseQuoted (String q (String c rest))
    /\ (q = CStr.SQUOTE \/ q = CStr.DQUOTE)
    /\ c <> CStr.SPACE /\ c <> CStr.NUL.
Proof.
  apply (add_cmdline_shell_unquoted_failure sample_handle "-name 'my guest'").
  unfold add_cmdline_shell_unquoted.
  rewrite shell_loop_step. cbn.
  rewrite shell_loop_step. reflexivity.
Defined.

(** X3: options that hold no quote character are always split: the
    child never exits in the splitter, and the tokens already on the
    command line stay in front. *)
Theorem add_cmdline_shell_unquoted_no_quote (g : guestfs_h) (options : string) :
  (forall k, CStr.char_at options k <> CStr.SQUOTE
             /\ CStr.char_at options k <> CStr.DQUOTE) ->
  exists toks,
    add_cmdline_shell_unquoted g options =
    inr (upd_app (set_cmdline (cmdline (app g) ++ toks)%list) g).
Proof.
  intros Hq. unfold add_cmdline_shell_unquoted.
  destruct (shell_loop options (cmdline (app g))) as [e|v] eqn:E.
  - exfalso.
    apply (shell_loop_failure _ _ _ _ (Nat.le_refl _)) in E.
    destruct E as (k & q & c & rest & Ho & _ & Hquote & _).
    destruct (Hq k) as [H1 H2].
    assert (Hk : CStr.char_at options k = q).
    { replace k with (k + 0)%nat by lia.
      rewrite <- char_at_advance, Ho. reflexivity. }
    destruct Hquote; congruence.
  - apply (shell_loop_extends _ _ _ _ (Nat.le_refl _)) in E.
    destruct E as [toks ->]. exists toks. reflexivity.
Qed.

Lemma add_cmdline_shell_unquoted_no_quote_witness :
  exists toks,
    add_cmdline_shell_unquoted sample_handle "-m 500" =
    inr (upd_app (set_cmdline (cmdline (app sample_handle) ++ toks)%list)
                 sample_handle).
Proof.
  apply (add_cmdline_shell_unquoted_no_quote sample_handle "-m 500").
  intros k. do 7 (destruct k as [|k]; [split; discriminate|]).
  split; discriminate.
Defined.

(** ** More on drive parameters and the appliance device *)

Lemma read_value_doubled s :
  read_value (String COMMA (String COMMA s)) =
  (String COMMA (fst (read_value s)), snd (read_value s)).
Proof. cbn [read_value]. simpl. destruct (read_value s); reflexivity. Qed.

Lemma read_value_plain a b t :
  Ascii.eqb a COMMA = false ->
  read_value (String a (String b t)) =
  (String a (fst (read_value (String b t))), snd (read_value (String b t))).
Proof.
  intros Ha. cbn [read_value]. rewrite Ha.
  destruct t; destruct (Ascii.eqb b COMMA); try reflexivity;
    match goal with |- context [let (_, _) := ?x in _] => destruct x end;
    reflexivity.
Qed.

Lemma read_value_escaped p c rest :
  c <> COMMA ->
  read_value (escape_commas p ++ String COMMA (String c rest)) = (p, String c rest).
Proof.
  intros Hc. apply Ascii.eqb_neq in Hc.
  induction p as [|a p IH].
  - simpl. rewrite Hc. reflexivity.
  - cbn [escape_commas]. destruct (Ascii.eqb a COMMA) eqn:Ha.
    + apply Ascii.eqb_eq in Ha. subst a.
      cbn [append]. rewrite read_value_doubled, IH. reflexivity.
    + cbn [append].
      destruct (escape_commas p ++ String COMMA (String c rest)) as [|b t] eqn:Et.
      { destruct (escape_commas p); discriminate. }
      rewrite (read_value_plain a b t Ha), IH. reflexivity.
Qed.

(** X4: the path copied with its commas doubled can be read back: in
    the text the loop leaves, followed by the comma of the next option,
    un-doubling up to the first single comma gives the path again and
    stops at that option. *)
Theorem copy_path_escaped_read_back (p r : string) (c : ascii) (rest : string) :
  c <> COMMA ->
  read_value (CStr.advance (String.length r)
                (copy_path_escaped p r ++ String COMMA (String c rest)))
  = (p, String c rest).
Proof.
  intros Hc. rewrite copy_path_escaped_spec, append_assoc, advance_append.
  apply read_value_escaped. exact Hc.
Qed.

Lemma copy_path_escaped_read_back_witness :
  read_value (CStr.advance 5
                (copy_path_escaped "/tmp/a,b.img" "file=" ++ ",if=virtio"))
  = ("/tmp/a,b.img", "if=virtio").
Proof.
  apply (copy_path_escaped_read_back "/tmp/a,b.img" "file=" "i" "f=virtio").
  discriminate.
Defined.

Lemma counts_same_for_expected drv vs :
  iface_expected drv ->
  counts_for_appliance vs drv = counts_for_appliance 0 drv.
Proof.
  unfold counts_for_appliance.
  intros [H|[H|H]]; rewrite H; destruct (vs =? 0); reflexivity.
Qed.

Lemma filter_ext_Forall {A} (p q : A -> bool) (P : A -> Prop) l :
  (forall x, P x -> p x = q x) -> Forall P l -> filter p l = filter q l.
Proof.
  intros H. induction 1 as [|x l Hx _ IH]; simpl; [reflexivity|].
  rewrite (H x Hx), IH. reflexivity.
Qed.

(** X5: when every drive has one of the three [iface] values the source
    expects (NULL, "ide", "virtio"), the appliance gets the same drive
    index on both buses: the two device names differ in the bus letter
    only; and when no drive sets [iface] the index is the number of
    drives, the appliance coming after all of them. *)
Theorem make_appliance_dev_expected_ifaces (g : guestfs_h) (virtio_scsi : Z) :
  Forall iface_expected (drives g) ->
  virtio_scsi <> 0 ->
  (exists n,
     (n <= nr_drives g)%nat
     /\ make_appliance_dev g virtio_scsi = "/dev/sd" ++ drive_name n
     /\ make_appliance_dev g 0 = "/dev/vd" ++ drive_name n)
  /\ (Forall (fun drv => iface drv = None) (drives g) ->
      make_appliance_dev g virtio_scsi = "/dev/sd" ++ drive_name (nr_drives g)).
Proof.
  intros Hexp Hvs. unfold make_appliance_dev.
  rewrite !fold_left_count. apply Z.eqb_neq in Hvs. rewrite Hvs. simpl negb.
  cbn [set_char Nat.add]. split.
  - exists (List.length (filter (counts_for_appliance virtio_scsi) (drives g))).
    split; [apply filter_length_le|]. split; [reflexivity|].
    rewrite (filter_ext_Forall (counts_for_appliance 0)
               (counts_for_appliance virtio_scsi) iface_expected); [reflexivity| |exact Hexp].
    intros x Hx. symmetry. apply counts_same_for_expected. exact Hx.
  - intros Hnone. f_equal. f_equal. unfold nr_drives.
    rewrite (filter_ext_Forall (counts_for_appliance virtio_scsi) (fun _ => true)
               (fun drv => iface drv = None)); [| |exact Hnone].
    + clear. induction (drives g); simpl; congruence.
    + intros x Hx. unfold counts_for_appliance. rewrite Hx.
      destruct (virtio_scsi =? 0); reflexivity.
Qed.

Lemma make_appliance_dev_expected_ifaces_witness :
  make_appliance_dev sample_handle 1 = "/dev/sd" ++ drive_name (nr_drives sample_handle).
Proof.
  refine (proj2 (make_appliance_dev_expected_ifaces sample_handle 1 _ _) _).
  - repeat constructor.
  - discriminate.
  - repeat constructor.
Defined.

(** ** More on the probe and the shutdown *)

(** A probe that does not fail leaves a help text. *)
Lemma qemu_supports_help run g opt :
  fst (qemu_supports run g opt) <> -1 ->
  qemu_help (app (snd (qemu_supports run g opt))) <> None.
Proof.
  unfold qemu_supports.
  destruct (qemu_help (app g)) as [help|] eqn:Hh.
  - simpl. rewrite Hh. destruct opt; simpl; congruence.
  - destruct (test_qemu_cases run g) as [[g1 E]|[g1 E]]; rewrite E.
    + apply test_qemu_ok in E. destruct E as ([out Ho] & _).
      change (0 =? -1) with false. cbv iota. rewrite Ho.
      destruct opt; simpl; congruence.
    + simpl. intros H. exfalso. apply H. reflexivity.
Qed.

(** With a help text in the handle nothing is run and nothing changes. *)
Lemma qemu_supports_cached run g opt help :
  qemu_help (app g) = Some help ->
  qemu_supports run g opt =
  (match opt with Some o => b2z (CStr.strstr help o) | None => 1 end, g).
Proof.
  intros Hh. unfold qemu_supports. rewrite Hh. simpl. rewrite Hh.
  destruct opt; reflexivity.
Qed.

(** X6: the binary is run at most once: after a call of [qemu_supports]
    that did not fail, every later call answers from the text in the
    handle, whatever running the binary would give then, and leaves the
    handle as it is. *)
Theorem qemu_supports_runs_once (run : cmd_outcome) (g : guestfs_h)
    (opt : option string) :
  fst (qemu_supports run g opt) <> -1 ->
  let g1 := snd (qemu_supports run g opt) in
  exists help,
    qemu_help (app g1) = Some help
    /\ forall run' opt',
         qemu_supports run' g1 opt' =
         (match opt' with Some o => b2z (CStr.strstr help o) | None => 1 end, g1).
Proof.
  intros H g1. pose proof (qemu_supports_help run g opt H) as Hh. fold g1 in Hh.
  destruct (qemu_help (app g1)) as [help|] eqn:E; [|congruence].
  exists help. split; [reflexivity|].
  intros run' opt'. apply qemu_supports_cached. exact E.
Qed.

Lemma qemu_supports_runs_once_witness :
  exists help,
    qemu_help (app (snd (qemu_supports sample_help_run sample_handle None))) = Some help
    /\ forall run' opt',
         qemu_supports run' (snd (qemu_supports sample_help_run sample_handle None)) opt' =
         (match opt' with Some o => b2z (CStr.strstr help o) | None => 1 end,
          snd (qemu_supports sample_help_run sample_handle None)).
Proof.
  apply (qemu_supports_runs_once sample_help_run sample_handle None).
  vm_compute. discriminate.
Defined.

(** X7: a shutdown empties the probe cache: the next query runs the
    binary again and answers from what that run prints, not from what
    the handle held before. *)
Theorem shutdown_then_probe_again (w : option Z) (g : guestfs_h) (c : Z)
    (status : Z) (out : string) (opt : string) :
  WIFEXITED status = true -> WEXITSTATUS status = 0 ->
  let g1 := snd (fst (shutdown_appliance w g c)) in
  fst (qemu_supports (CmdFinished status out) g1 (Some opt)) = b2z (CStr.strstr out opt)
  /\ qemu_help (app (snd (qemu_supports (CmdFinished status out) g1 (Some opt)))) = Some out
  /\ forall err, fst (qemu_supports (CmdError err) g1 (Some opt)) = -1.
Proof.
  intros Hex Hst g1.
  assert (Hh : qemu_help (app g1) = None).
  { unfold g1, shutdown_appliance.
    destruct (recovery_proc g && (pid (app g) >? 0))%bool;
      [destruct w as [s|];
       [destruct (negb (WIFEXITED s) || negb (WEXITSTATUS s =? 0))%bool|]|];
      reflexivity. }
  assert (Hs : (status =? -1) = false).
  { apply Z.eqb_neq. intros ->. vm_compute in Hex. discriminate. }
  unfold qemu_supports. rewrite Hh. unfold test_qemu.
  cbn [cmd_r cmd_stdout]. rewrite Hs, Hex, Hst. cbn.
  repeat split.
Qed.

Lemma shutdown_then_probe_again_witness :
  fst (qemu_supports (CmdFinished 0 "-machine -global")
         (snd (fst (shutdown_appliance (Some 0) handle_qemu_1_1 0))) (Some "-global")) = 1.
Proof.
  apply (shutdown_then_probe_again (Some 0) handle_qemu_1_1 0 0 "-machine -global"
           "-global"); reflexivity.
Defined.

(** X8: a probe that fails after the output of the binary was captured
    (the run ends with a status other than a clean exit 0) returns -1 but
    leaves the captured text in the handle as help text; the next call of
    [qemu_supports] then runs nothing and answers 1. *)
Theorem failed_probe_keeps_help (g : guestfs_h) (status : Z) (out : string)
    (run' : cmd_outcome) :
  qemu_help (app g) = None ->
  WIFEXITED status = false \/ WEXITSTATUS status <> 0 ->
  let g1 := snd (qemu_supports (CmdFinished status out) g None) in
  fst (qemu_supports (CmdFinished status out) g None) = -1
  /\ qemu_help (app g1) = Some out
  /\ qemu_devices (app g1) = None
  /\ qemu_supports run' g1 None = (1, g1).
Proof.
  intros Hh Hbad g1.
  assert (E : qemu_supports (CmdFinished status out) g None =
              (-1, upd_app (set_qemu_help (Some out))
                     (upd_app (set_qemu_devices None)
                        (upd_app (set_qemu_version None)
                           (upd_app (set_qemu_help None) g))))).
  { unfold qemu_supports. rewrite Hh. unfold test_qemu. cbn [cmd_r cmd_stdout].
    assert (Hc : ((status =? -1) || negb (WIFEXITED status)
                  || negb (WEXITSTATUS status =? 0))%bool = true).
    { destruct Hbad as [H|H].
      - rewrite H. simpl. rewrite orb_true_r. reflexivity.
      - apply Z.eqb_neq in H. rewrite H. simpl. apply orb_true_r. }
    rewrite Hc. reflexivity. }
  unfold g1. rewrite E. cbn [fst snd]. repeat split.
Qed.

Lemma failed_probe_keeps_help_witness :
  qemu_supports sample_help_run
    (snd (qemu_supports (CmdFinished 256 "usage") sample_handle None)) None
  = (1, snd (qemu_supports (CmdFinished 256 "usage") sample_handle None)).
Proof.
  refine (proj2 (proj2 (proj2
            (failed_probe_keeps_help sample_handle 256 "usage" sample_help_run _ _)))).
  - reflexivity.
  - right. vm_compute. discriminate.
Defined.

(** X9: [parse_qemu_version] writes both numbers or neither: the
    version is 0.0 unless the version text holds a [digits.digits] token
    both parts of which fit an [int], and then it is that pair; whatever
    version the handle held before is gone.  No other field changes. *)
Theorem parse_qemu_version_all_or_nothing (g : guestfs_h) :
  let g' := parse_qemu_version g in
  ((qemu_version_major (app g') = 0 /\ qemu_version_minor (app g') = 0)
   \/ (exists version major_s minor_s,
         qemu_version (app g) = Some version
         /\ match2_major_minor version = Some (major_s, minor_s)
         /\ qemu_version_major (app g') = parse_unsigned_int major_s
         /\ qemu_version_minor (app g') = parse_unsigned_int minor_s
         /\ parse_unsigned_int major_s <> -1
         /\ parse_unsigned_int minor_s <> -1))
  /\ g' = upd_app (set_qemu_version_minor (qemu_version_minor (app g')))
            (upd_app (set_qemu_version_major (qemu_version_major (app g'))) g).
Proof.
  unfold parse_qemu_version. cbn [upd_app set_app app set_qemu_version_major
    set_qemu_version_minor qemu_version].
  destruct (qemu_version (app g)) as [version|] eqn:Hv; [|split; [left|]; auto].
  destruct (match2_major_minor version) as [[major_s minor_s]|] eqn:Hm;
    [|split; [left|]; auto].
  destruct (Z.eqb_spec (parse_unsigned_int major_s) (-1)) as [E1|E1];
    [split; [left|]; auto|].
  destruct (Z.eqb_spec (parse_unsigned_int minor_s) (-1)) as [E2|E2];
    [split; [left|]; auto|].
  split; [|reflexivity].
  right. exists version, major_s, minor_s. cbn. auto 10.
Qed.

(** X10: [shutdown_appliance] returns 0 or -1, and -1 exactly when it
    waited for qemu, which it does only with a recovery process
    configured and a qemu process recorded, and the wait failed or qemu
    did not exit with status 0.  Without a recovery process configured
    qemu is sent SIGTERM and is not waited for. *)
Theorem shutdown_appliance_result (w : option Z) (g : guestfs_h) (c : Z) :
  let r := fst (fst (shutdown_appliance w g c)) in
  let tr := snd (shutdown_appliance w g c) in
  (r = 0 \/ r = -1)
  /\ (r = -1 <->
      recovery_proc g = true /\ pid (app g) > 0
      /\ match w with
         | None => True
         | Some status => WIFEXITED status = false \/ WEXITSTATUS status <> 0
         end)
  /\ (recovery_proc g = false ->
      tr = ((if pid (app g) >? 0 then [EvKill (pid (app g)) SIGTERM] else [])
            ++ (if recoverypid (app g) >? 0
                then [EvKill (recoverypid (app g)) 9; EvWaitpid (recoverypid (app g))]
                else []))%list).
Proof.
  unfold shutdown_appliance.
  destruct (recovery_proc g) eqn:Hrp; cbn [andb].
  - destruct (Z.gtb_spec (pid (app g)) 0) as [Hp|Hp].
    + destruct w as [status|].
      * destruct (WIFEXITED status) eqn:Hex; cbn [negb orb].
        -- destruct (Z.eqb_spec (WEXITSTATUS status) 0) as [Hs|Hs]; cbn [negb fst snd].
           ++ split; [auto|]. split; [|discriminate].
              split; [discriminate|]. intros (_ & _ & [H|H]); [discriminate|lia].
           ++ split; [auto|]. split; [|discriminate].
              split; auto. intros _. repeat split; auto; lia.
        -- cbn [fst snd]. split; [auto|]. split; [|discriminate]. split; auto.
           intros _. repeat split; auto; lia.
      * cbn [fst snd]. split; [auto|]. split; [|discriminate]. split; auto.
        intros _. repeat split; auto; lia.
    + cbn [fst snd]. split; [auto|]. split; [|discriminate].
      split; [discriminate|]. intros (_ & H & _). lia.
  - cbn [fst snd]. split; [auto|]. split.
    + split; [discriminate|]. intros (H & _). discriminate.
    + intros _. destruct (pid (app g) >? 0), (recoverypid (app g) >? 0); reflexivity.
Qed.

(** ** A launch that succeeds *)

(** The probe writes into [g->app] only. *)
Lemma test_qemu_only_app run g :
  snd (test_qemu run g) = set_app (app (snd (test_qemu run g))) g.
Proof.
  unfold test_qemu.
  destruct ((cmd_r run =? -1) || negb (WIFEXITED (cmd_r run))
            || negb (WEXITSTATUS (cmd_r run) =? 0))%bool;
    destruct (cmd_stdout run); destruct g; reflexivity.
Qed.

Lemma qemu_supports_only_app run g opt :
  snd (qemu_supports run g opt) = set_app (app (snd (qemu_supports run g opt))) g.
Proof.
  unfold qemu_supports.
  destruct (qemu_help (app g)) as [help|] eqn:Hh.
  - simpl. rewrite Hh. destruct opt; destruct g; reflexivity.
  - pose proof (test_qemu_only_app run g) as H.
    destruct (test_qemu run g) as [r g1]. simpl in H.
    destruct (r =? -1); [exact H|].
    destruct opt, (qemu_help (app g1)); exact H.
Qed.

(** The accept loop, when it ends with a socket: connections of other
    users were closed one by one, and the one kept is the first that
    comes from the user the library runs as. *)
Lemma accept_loop_accepted euid conns f r f' :
  accept_loop euid conns f = (inr r, f') ->
  exists evs,
    accepted_from euid conns r evs
    /\ f' = mkFrame (hdl f) (wfd0 f) (wfd1 f) (rfd0 f) (rfd1 f) (trace f ++ evs).
Proof.
  revert f; induction conns as [|c conns IH]; intros f; simpl.
  - intros [= ].
  - destruct c as [|fd peer]; [intros [= ]|].
    unfold bind, emit, leave, ret. simpl.
    destruct (check_peer_euid peer) as [err|uid] eqn:Hc; simpl; [intros [= ]|].
    destruct (Z.eqb_spec uid euid) as [Hu|Hu]; simpl.
    + intros [= <- <-]. exists [EvAccept (Z.of_N fd)]. split; [|reflexivity].
      exists [], fd, peer, conns. subst uid. repeat split; auto.
    + intros H. apply IH in H. simpl in H.
      destruct H as (evs & (strangers & fd' & peer' & rest & -> & Hs & Hp & -> & ->) & ->).
      exists (turned_away (Accepted fd peer)
              ++ flat_map turned_away strangers ++ [EvAccept (Z.of_N fd')])%list.
      split.
      * exists (Accepted fd peer :: strangers), fd', peer', rest.
        split; [reflexivity|]. split.
        { constructor; [simpl; rewrite Hc; exact Hu|exact Hs]. }
        split; [exact Hp|]. split; [reflexivity|].
        cbn [flat_map]. rewrite <- app_assoc. reflexivity.
      * simpl. rewrite Hc. simpl. rewrite <- !app_assoc. reflexivity.
Qed.

Lemma turned_away_accept_events l : Forall accept_event (flat_map turned_away l).
Proof.
  induction l as [|c l IH]; simpl; [constructor|].
  apply Forall_app. split; [|exact IH].
  destruct c as [|fd peer]; simpl; [constructor|].
  destruct (check_peer_euid peer); repeat constructor.
Qed.

(** The cleanup code always ends in [return -1]. *)
Lemma cleanup0_returns f : fst (cleanup0 f) = inr (-1).
Proof.
  unfold cleanup0.
  cbv [bind ret leave emit get_g modify_g when]. cbn.
  destruct (sock (hdl f) >=? 0); reflexivity.
Qed.

Lemma cleanup1_returns f : fst (cleanup1 f) = inr tt.
Proof.
  unfold cleanup1.
  cbv [bind ret leave emit get_g get_frame modify_g when]. cbn.
  destruct (negb (direct (hdl f))); cbn;
    [destruct (wfd1 f >=? 0); cbn; destruct (rfd1 f >=? 0); cbn|];
    destruct (pid (app (hdl f)) >? 0); cbn;
    destruct (recoverypid (app (hdl f)) >? 0); cbn;
    destruct (fd0 (hdl f) >=? 0); cbn;
    destruct (fd1 (hdl f) >=? 0); reflexivity.
Qed.

(** A step of the body that leaves for a cleanup label or returns -1. *)
Ltac stops :=
  mrun; intros [= <- <-]; cbn; first [exact I | reflexivity].

(** The body of the launch, followed along the one path that reaches
    [return 0]; every other path leaves for a cleanup label or returns
    -1. *)
Lemma launch_body_outcome e g x f' :
  launch_body e (mkFrame g 0 0 0 0 []) = (x, f') ->
  match x with
  | inl (Return v) => v = -1
  | inl _ => True
  | inr v => v = 0 /\ launched e g (hdl f') (trace f')
  end.
Proof.
  unfold launch_body.
  destruct e as [build run socket_r bind_r listen_r getsockname_r fcntl_sock_r
                 pipe_w pipe_r fork_r fork_recovery fcntl_w fcntl_r conns euid
                 close_sock_r fcntl_data_r recv_r].
  unfold launched.
  cbn [e_build_appliance e_qemu_run e_socket e_bind e_listen e_getsockname
       e_fcntl_sock e_pipe_w e_pipe_r e_fork e_fork_recovery e_fcntl_w e_fcntl_r
       e_connections e_geteuid e_close_sock e_fcntl_data e_recv].
  pose proof (qemu_supports_other_fields run g None) as Hq. cbv zeta in Hq.
  destruct Hq as (Hpid & Hrpid & Hfd0 & Hfd1 & Hlt & Hsock & Hstate).
  pose proof (qemu_supports_only_app run g None) as Happ.
  pose proof (qemu_supports_help run g None) as Hhelp.
  mrun.
  destruct (drives g) as [|drv0 drvs] eqn:Hdrives.
  { unfold nr_drives. rewrite Hdrives. stops. }
  unfold nr_drives. rewrite Hdrives. mrun.
  destruct build as [[[kernel initrd] appliance]|]; [|stops].
  mrun.
  set (g1 := snd (qemu_supports run g None)) in *.
  assert (Hd : direct g1 = direct g) by (rewrite Happ; reflexivity).
  assert (Hrp : recovery_proc g1 = recovery_proc g) by (rewrite Happ; reflexivity).
  clear Happ.
  destruct (Z.eqb_spec (fst (qemu_supports run g None)) (-1)) as [Hprobe|Hprobe]; [stops|].
  specialize (Hhelp Hprobe).
  mrun.
  destruct socket_r as [fd|]; [|stops].
  destruct bind_r; [|stops].
  destruct listen_r; [|stops].
  destruct getsockname_r as [port|]; [|stops].
  destruct fcntl_sock_r; [|stops].
  mrun.
  rewrite <- Hd, <- Hrp.
  destruct (direct g1) eqn:Hdirect; mrun.
  - destruct fork_r as [vm|]; [|stops].
    mrun.
    destruct (recovery_proc g1); [destruct fork_recovery as [rp|]|]; mrun.
    all: match goal with
         | |- context [accept_loop ?u ?c ?f] =>
             destruct (accept_loop u c f) as [[x0|r0] f0] eqn:Ea
         end.
    all: try (apply accept_loop_frame in Ea;
              destruct Ea as (evs & -> & Hevs & [[= ->] | (r1 & [= ] & _)]); stops).
    all: apply accept_loop_accepted in Ea;
         destruct Ea as (evs & (strangers & cfd & peer & rest & -> & Hs & Hp & -> & ->) & ->).
    all: mrun.
    all: destruct close_sock_r; [|stops]; mrun.
    all: destruct fcntl_data_r; [|stops]; mrun.
    all: destruct recv_r as [ok size st]; cbn [recv_ok recv_size recv_state].
    all: destruct ok; [|stops]; mrun.
    all: destruct (Z.eqb_spec size GUESTFS_LAUNCH_FLAG) as [Hsz|Hsz]; [|stops]; mrun.
    all: destruct st; try stops; mrun.
    all: destruct appliance; mrun.
    all: intros [= <- <-]; split; [reflexivity|].
    all: cbn; rewrite ?Hfd0, ?Hfd1.
    all: repeat match goal with
         | |- _ /\ _ => split
         | |- exists s, Some ?x = Some s /\ _ => exists x
         | |- exists fd peer, In _ _ /\ _ => exists cfd, peer
         end; try reflexivity; try assumption.
    all: try (apply in_or_app; right; left; reflexivity).
    all: try show_in.
    all: pose proof (turned_away_accept_events strangers) as Hta.
    all: intros a b H; split_in.
  - destruct pipe_w as [[a b]|]; [|stops].
    mrun.
    destruct pipe_r as [[c d]|]; [|stops].
    mrun.
    destruct fork_r as [vm|]; [|stops].
    mrun.
    destruct (recovery_proc g1); [destruct fork_recovery as [rp|]|]; mrun.
    all: destruct (fcntl_w && fcntl_r)%bool; [|stops]; mrun.
    all: match goal with
         | |- context [accept_loop ?u ?c ?f] =>
             destruct (accept_loop u c f) as [[x0|r0] f0] eqn:Ea
         end.
    all: try (apply accept_loop_frame in Ea;
              destruct Ea as (evs & -> & Hevs & [[= ->] | (r1 & [= ] & _)]); stops).
    all: apply accept_loop_accepted in Ea;
         destruct Ea as (evs & (strangers & cfd & peer & rest & -> & Hs & Hp & -> & ->) & ->).
    all: mrun.
    all: destruct close_sock_r; [|stops]; mrun.
    all: destruct fcntl_data_r; [|stops]; mrun.
    all: destruct recv_r as [ok size st]; cbn [recv_ok recv_size recv_state].
    all: destruct ok; [|stops]; mrun.
    all: destruct (Z.eqb_spec size GUESTFS_LAUNCH_FLAG) as [Hsz|Hsz]; [|stops]; mrun.
    all: destruct st; try stops; mrun.
    all: destruct appliance; mrun.
    all: intros [= <- <-]; split; [reflexivity|].
    all: cbn.
    all: repeat match goal with
         | |- _ /\ _ => split
         | |- exists s, Some ?x = Some s /\ _ => exists x
         | |- exists fd peer, In _ _ /\ _ => exists cfd, peer
         | |- exists a' b' c' d', Some _ = Some _ /\ _ => exists a, b, c, d
         end; try reflexivity; try assumption.
    all: try (apply in_or_app; right; left; reflexivity).
    all: try show_in.
Qed.

(** A launch returns 0 or -1, and 0 only along the path that leaves the
    handle launched. *)
Lemma launch_outcome e g r g' tr :
  launch_appliance e g = (r, g', tr) -> r = -1 \/ (r = 0 /\ launched e g g' tr).
Proof.
  unfold launch_appliance.
  destruct (launch_body e (mkFrame g 0 0 0 0 [])) as [[[| |v]|v] f1] eqn:E;
    apply launch_body_outcome in E.
  - pose proof (cleanup0_returns f1) as H.
    destruct (cleanup0 f1) as [y f2]. simpl in H. subst y.
    intros [= <- _ _]. left. reflexivity.
  - unfold bind. pose proof (cleanup1_returns f1) as H1.
    destruct (cleanup1 f1) as [y f2]. simpl in H1. subst y.
    pose proof (cleanup0_returns f2) as H.
    destruct (cleanup0 f2) as [y f3]. simpl in H. subst y.
    intros [= <- _ _]. left. reflexivity.
  - intros [= <- _ _]. left. exact E.
  - destruct E as [-> E]. intros [= <- <- <-]. right. split; [reflexivity|exact E].
Qed.

(** X11: the accept loop ends with a socket only for the first
    connection that comes from the user the library runs as; every
    connection before it came from another user, got a warning and was
    closed; the handle and the pipe descriptors are not touched. *)
Theorem accept_loop_first_own_connection (euid : Z) (conns : list accept_outcome)
    (f f' : frame) (r : Z) :
  accept_loop euid conns f = (inr r, f') ->
  exists strangers fd peer rest,
    conns = (strangers ++ Accepted fd peer :: rest)%list
    /\ Forall (stranger euid) strangers
    /\ check_peer_euid peer = inr euid
    /\ r = Z.of_N fd
    /\ f' = mkFrame (hdl f) (wfd0 f) (wfd1 f) (rfd0 f) (rfd1 f)
              (trace f ++ flat_map turned_away strangers ++ [EvAccept r]).
Proof.
  intros H. apply accept_loop_accepted in H.
  destruct H as (evs & (strangers & fd & peer & rest & Hc & Hs & Hp & Hr & ->) & ->).
  exists strangers, fd, peer, rest. auto.
Qed.

Lemma accept_loop_first_own_connection_witness :
  exists strangers fd peer rest,
    e_connections env_stranger_first = (strangers ++ Accepted fd peer :: rest)%list
    /\ Forall (stranger 1000) strangers
    /\ check_peer_euid peer = inr 1000
    /\ 9 = Z.of_N fd
    /\ snd (accept_loop 1000 (e_connections env_stranger_first) (mkFrame sample_handle 0 0 0 0 []))
       = mkFrame sample_handle 0 0 0 0
           ([] ++ flat_map turned_away strangers ++ [EvAccept 9]).
Proof.
  assert (E : accept_loop 1000 (e_connections env_stranger_first)
                (mkFrame sample_handle 0 0 0 0 []) =
              (inr 9, snd (accept_loop 1000 (e_connections env_stranger_first)
                             (mkFrame sample_handle 0 0 0 0 []))))
    by (vm_compute; reflexivity).
  exact (accept_loop_first_own_connection _ _ _ _ _ E).
Defined.

(** X12: [launch_appliance] returns 0 or -1; when it returns 0 the
    handle is READY, its socket is a connection that was accepted from a
    peer whose UID is the effective UID of the library, the qemu child
    was forked and its process identifier recorded, the listening socket
    was closed, and the daemon's first message carried the launch flag. *)
Theorem launch_appliance_success (e : launch_env) (g g' : guestfs_h) (r : Z)
    (tr : list event) :
  launch_appliance e g = (r, g', tr) ->
  r = -1
  \/ (r = 0
      /\ g_state g' = READY
      /\ (exists fd peer,
            In (Accepted fd peer) (e_connections e)
            /\ check_peer_euid peer = inr (e_geteuid e)
            /\ sock g' = Z.of_N fd)
      /\ (exists vm, e_fork e = Some vm /\ pid (app g') = Zpos vm)
      /\ (exists s, e_socket e = Some s /\ In (EvClose (Z.of_N s)) tr)
      /\ recv_ok (e_recv e) = true
      /\ recv_size (e_recv e) = GUESTFS_LAUNCH_FLAG).
Proof.
  intros H. apply launch_outcome in H. destruct H as [H|[H L]]; [left; exact H|].
  right. destruct L as (H1 & H2 & H3 & _ & H5 & _ & H7 & H8 & _). auto 10.
Qed.

Lemma launch_appliance_success_witness :
  g_state (snd (fst (launch_appliance env_stranger_first sample_handle))) = READY
  /\ sock (snd (fst (launch_appliance env_stranger_first sample_handle))) = 9.
Proof.
  assert (E : launch_appliance env_stranger_first sample_handle =
              (0, snd (fst (launch_appliance env_stranger_first sample_handle)),
               snd (launch_appliance env_stranger_first sample_handle)))
    by (vm_compute; reflexivity).
  destruct (launch_appliance_success _ _ _ _ _ E) as [H|(_ & H & _)];
    [discriminate H|].
  split; [exact H|]. vm_compute. reflexivity.
Defined.

(** X13: after a launch that returned 0, in direct mode the stdio
    descriptors of the handle are as they were and no pipe was made;
    otherwise they are the write end of the first pipe and the read end
    of the second, and the two other ends were closed in the parent. *)
Theorem launch_appliance_stdio (e : launch_env) (g g' : guestfs_h)
    (tr : list event) :
  launch_appliance e g = (0, g', tr) ->
  if direct g
  then fd0 g' = fd0 g /\ fd1 g' = fd1 g /\ (forall a b, ~ In (EvPipe a b) tr)
  else exists a b c d,
         e_pipe_w e = Some (a, b) /\ e_pipe_r e = Some (c, d)
         /\ fd0 g' = Z.of_N b /\ fd1 g' = Z.of_N c
         /\ In (EvClose (Z.of_N a)) tr /\ In (EvClose (Z.of_N d)) tr.
Proof.
  intros H. apply launch_outcome in H. destruct H as [H|[_ L]]; [discriminate H|].
  destruct L as (_ & _ & _ & _ & _ & H6 & _). exact H6.
Qed.

Lemma launch_appliance_stdio_witness :
  exists a b c d,
    e_pipe_w env_ok = Some (a, b) /\ e_pipe_r env_ok = Some (c, d)
    /\ fd0 (snd (fst (launch_appliance env_ok sample_handle))) = Z.of_N b
    /\ fd1 (snd (fst (launch_appliance env_ok sample_handle))) = Z.of_N c
    /\ In (EvClose (Z.of_N a)) (snd (launch_appliance env_ok sample_handle))
    /\ In (EvClose (Z.of_N d)) (snd (launch_appliance env_ok sample_handle)).
Proof.
  assert (E : launch_appliance env_ok sample_handle =
              (0, snd (fst (launch_appliance env_ok sample_handle)),
               snd (launch_appliance env_ok sample_handle)))
    by (vm_compute; reflexivity).
  exact (launch_appliance_stdio _ _ _ _ E).
Defined.

(** X14: [get_pid_appliance] answers with the process identifier of the
    qemu child after a launch that returned 0, and with -1 and the error
    "no qemu subprocess" after a shutdown; a recovery process is not
    needed for the launch to succeed, its identifier is -1 when it was
    not asked for or could not be forked. *)
Theorem get_pid_appliance_follows_launch (e : launch_env) (g g' : guestfs_h)
    (tr : list event) :
  launch_appliance e g = (0, g', tr) ->
  (exists vm, e_fork e = Some vm /\ get_pid_appliance g' = (Zpos vm, []))
  /\ recoverypid (app g') =
       (if recovery_proc g
        then match e_fork_recovery e with Some p => Zpos p | None => -1 end
        else -1)
  /\ forall w c,
       get_pid_appliance (snd (fst (shutdown_appliance w g' c)))
       = (-1, [EvError "get_pid: no qemu subprocess"]).
Proof.
  intros H. apply launch_outcome in H. destruct H as [H|[_ L]]; [discriminate H|].
  destruct L as (_ & _ & (vm & Hf & Hp) & Hr & _).
  split; [|split; [exact Hr|]].
  - exists vm. split; [exact Hf|]. unfold get_pid_appliance. rewrite Hp. reflexivity.
  - intros w c. unfold shutdown_appliance.
    destruct (recovery_proc g' && (pid (app g') >? 0))%bool;
      [destruct w as [s|];
       [destruct (negb (WIFEXITED s) || negb (WEXITSTATUS s =? 0))%bool|]|];
      reflexivity.
Qed.

Lemma get_pid_appliance_follows_launch_witness :
  exists vm, e_fork env_ok = Some vm
    /\ get_pid_appliance (snd (fst (launch_appliance env_ok sample_handle))) = (Zpos vm, []).
Proof.
  assert (E : launch_appliance env_ok sample_handle =
              (0, snd (fst (launch_appliance env_ok sample_handle)),
               snd (launch_appliance env_ok sample_handle)))
    by (vm_compute; reflexivity).
  exact (proj1 (get_pid_appliance_follows_launch _ _ _ _ E)).
Defined.

(** X15: when the probe of the binary fails, the launch fails before a
    socket, a pipe or a process is created: it returns -1 with the state
    CONFIG, the only events being the two progress messages and, if the
    handle came with a socket, its closing. *)
Theorem launch_appliance_probe_failure (e : launch_env) (g : guestfs_h)
    (bundle : string * string * option string) :
  nr_drives g <> O ->
  e_build_appliance e = Some bundle ->
  fst (qemu_supports (e_qemu_run e) g None) = -1 ->
  let g1 := snd (qemu_supports (e_qemu_run e) g None) in
  launch_appliance e g =
  (-1,
   set_state CONFIG (if sock g >=? 0 then set_sock (-1) g1 else g1),
   [EvProgress 0; EvProgress 3] ++ (if sock g >=? 0 then [EvClose (sock g)] else []))%list.
Proof.
  intros Hn Hb Hp g1.
  pose proof (qemu_supports_other_fields (e_qemu_run e) g None) as Hq. cbv zeta in Hq.
  destruct Hq as (_ & _ & _ & _ & _ & Hsock & _). fold g1 in Hsock.
  unfold launch_appliance, launch_body, cleanup0.
  cbv [bind ret leave emit get_g modify_g call_g set_wfd set_rfd get_frame when].
  cbn [hdl trace].
  destruct (nr_drives g) eqn:E; [contradiction|]. cbn [Nat.eqb].
  rewrite Hb. destruct bundle as [[kernel initrd] appliance].
  cbn [hdl trace fst snd]. rewrite Hp. cbn. fold g1. rewrite Hsock.
  destruct (sock g >=? 0); reflexivity.
Qed.

Lemma launch_appliance_probe_failure_witness :
  launch_appliance env_probe_fails sample_handle =
  (-1,
   set_state CONFIG (snd (qemu_supports (CmdError None) sample_handle None)),
   [EvProgress 0; EvProgress 3]).
Proof.
  apply (launch_appliance_probe_failure env_probe_fails sample_handle
           ("/tmp/kernel", "/tmp/initrd", Some "/tmp/root")).
  - discriminate.
  - reflexivity.
  - reflexivity.
Defined.
